(** * ShadowTree: the commit engine and the mount-flag diff pass

    A shallow embedding of [ABI38_0_0ShadowTree.cpp] (React Native Fabric,
    mounting layer): the recursive positional diff [updateMountedFlag] that
    maintains the [mounted] flag of shadow nodes, one optimistic attempt
    [tryCommit], the retry loop [commit] and [commitEmptyTree].

    Heap objects are modelled by their addresses: a [ShadowNode::Shared] is a
    node value tagged with the address of the object it points to, and pointer
    comparisons of the source compare those tags.  The one mutable field of a
    sealed node, [mounted_], lives in a store indexed by address.  Calls to
    collaborators (state handles, the mounting coordinator, the delegate, the
    layout event emitters) are recorded in logs, in call order. *)

From stdpp Require Import gmap list.

Set Warnings "-register-all".
Open Scope Z_scope.

(** ** Shadow nodes *)

(** Modelled from the spec: the class [ShadowNode] (declared in a header that
    is not part of the sources).  A node carries a family identity that is
    stable across revisions, an optional mutable-state handle, an ordered list
    of children, and the single mutable flag [mounted_]; [addr] is the address
    of the node object and [childrenRef] the address of the vector that
    [getChildren()] returns a reference to. *)
Inductive ShadowNode : Type :=
  mkShadowNode {
    addr : positive;
    family : positive;
    state : option positive;
    childrenRef : positive;
    children : list ShadowNode
  }.

(** A [SharedShadowNodeList const &]: the vector and, for a vector owned by a
    node, its address.  A temporary built at a call site ([{}]) has an address
    no other list has, which [listRef = None] stands for. *)
Record SharedShadowNodeList : Type :=
  mkList {
    listRef : option positive;
    items : list ShadowNode
  }.

(** [shadowNode->getChildren()] *)
Definition getChildren (shadowNode : ShadowNode) : SharedShadowNodeList :=
  {| listRef := Some (childrenRef shadowNode); items := children shadowNode |}.

(** The temporary [{}] of the recursive calls in stages 2 and 3. *)
Definition temporaryEmptyList : SharedShadowNodeList :=
  {| listRef := None; items := [] |}.

(** [&oldChildren == &newChildren] *)
Definition sameListObject (l1 l2 : SharedShadowNodeList) : bool :=
  match listRef l1, listRef l2 with
  | Some r1, Some r2 => bool_decide (r1 = r2)
  | _, _ => false
  end.

(** [oldChild == newChild] on shared pointers. *)
Definition samePointer (n1 n2 : ShadowNode) : bool :=
  bool_decide (addr n1 = addr n2).

(** Modelled from the spec: [ShadowNode::sameFamily], a value comparison of the
    family identities of two nodes. *)
Definition sameFamily (n1 n2 : ShadowNode) : bool :=
  bool_decide (family n1 = family n2).

(** ** Effects of the diff pass *)

(** The two calls the pass makes on collaborators: [node->setMounted(flag)] and
    [state->commit(node)]. *)
Inductive Event : Type :=
  | SetMounted (node : ShadowNode) (flag : bool)
  | StateCommit (handle : positive) (node : ShadowNode).

(** [CommitState]: commit the state handle of the node when it has one. *)
Definition CommitState (shadowNode : ShadowNode) : list Event :=
  match state shadowNode with
  | Some handle => [StateCommit handle shadowNode]
  | None => []
  end.

(** ** updateMountedFlag *)

Section Stages.

(** The recursive call, left open so that each loop is a function of its
    own. *)
Variable recur : SharedShadowNodeList -> SharedShadowNodeList -> list Event.

(** Stage 1, the loop
    [for (index = 0; index < old.size() && index < new.size(); index++)].
    [oldRest] and [newRest] are the entries from [index] on; the result is
    the value of [index] when the loop is left and the calls made. *)
Fixpoint stage1 (oldRest newRest : list ShadowNode) (index : nat)
  : nat * list Event :=
  match oldRest, newRest with
  | oldChild :: oldRest', newChild :: newRest' =>
      if samePointer oldChild newChild then
        (* continue *)
        stage1 oldRest' newRest' (S index)
      else if negb (sameFamily oldChild newChild) then
        (* break *)
        (index, [])
      else
        let '(last, later) := stage1 oldRest' newRest' (S index) in
        (last,
         SetMounted newChild true
           :: CommitState newChild
           ++ SetMounted oldChild false
           :: recur (getChildren oldChild) (getChildren newChild)
           ++ later)
  | _, _ => (index, [])
  end.

(** Stage 2, over the new entries from [lastIndexAfterFirstStage] on. *)
Fixpoint stage2 (newRest : list ShadowNode) : list Event :=
  match newRest with
  | [] => []
  | newChild :: newRest' =>
      SetMounted newChild true
        :: CommitState newChild
        ++ recur temporaryEmptyList (getChildren newChild)
        ++ stage2 newRest'
  end.

(** Stage 3, over the old entries from [lastIndexAfterFirstStage] on. *)
Fixpoint stage3 (oldRest : list ShadowNode) : list Event :=
  match oldRest with
  | [] => []
  | oldChild :: oldRest' =>
      SetMounted oldChild false
        :: recur (getChildren oldChild) temporaryEmptyList
        ++ stage3 oldRest'
  end.

(** The body of [updateMountedFlag]. *)
Definition updateMountedFlag_body
    (oldChildren newChildren : SharedShadowNodeList) : list Event :=
  if sameListObject oldChildren newChildren then []
  else if bool_decide (length (items oldChildren) = 0%nat)
          && bool_decide (length (items newChildren) = 0%nat) then []
  else
    let '(lastIndexAfterFirstStage, updated) :=
      stage1 (items oldChildren) (items newChildren) 0%nat in
    updated
      ++ stage2 (drop lastIndexAfterFirstStage (items newChildren))
      ++ stage3 (drop lastIndexAfterFirstStage (items oldChildren)).

End Stages.

(** The height of a subtree bounds the depth of the recursion. *)
Fixpoint nodeHeight (n : ShadowNode) : nat :=
  S (foldr (fun c h => Nat.max (nodeHeight c) h) 0%nat (children n)).

Definition forestHeight (l : list ShadowNode) : nat :=
  foldr (fun c h => Nat.max (nodeHeight c) h) 0%nat l.

(** [updateMountedFlag] with the recursion depth made explicit. *)
Fixpoint updateMountedFlag_depth (depth : nat)
    (oldChildren newChildren : SharedShadowNodeList) : list Event :=
  match depth with
  | O => []
  | S depth' =>
      updateMountedFlag_body (updateMountedFlag_depth depth')
        oldChildren newChildren
  end.

(** [updateMountedFlag]: it is total, the recursion descends into children
    only; [updateMountedFlag_unfold] below gives the equation of the source. *)
Definition updateMountedFlag
    (oldChildren newChildren : SharedShadowNodeList) : list Event :=
  updateMountedFlag_depth
    (S (Nat.max (forestHeight (items oldChildren))
                (forestHeight (items newChildren))))
    oldChildren newChildren.

(** ** The mounted flags *)

(** The [mounted_] fields of all node objects, by address.  An address that
    was never written has no entry. *)
Definition applyEvent (flags : gmap positive bool) (e : Event)
  : gmap positive bool :=
  match e with
  | SetMounted node flag => <[addr node := flag]> flags
  | StateCommit _ _ => flags
  end.

Definition applyEvents (flags : gmap positive bool) (evs : list Event)
  : gmap positive bool :=
  foldl applyEvent flags evs.

(** ** The shadow tree *)

(** A [ShadowTreeRevision]: the root and the revision number (the telemetry
    record holds time stamps only and is left out). *)
Record ShadowTreeRevision : Type :=
  mkRevision {
    revisionRoot : ShadowNode;
    revisionNumber : Z
  }.

(** An entry of [affectedLayoutableNodes], with the [onLayout] property of its
    props and its layout metrics. *)
Record LayoutableShadowNode : Type :=
  mkLayoutable {
    layoutableAddr : positive;
    onLayout : bool;
    layoutMetrics : Z
  }.

(** The mutable members of a [ShadowTree] and what its collaborators have
    received so far: the revisions handed to the mounting coordinator (the
    base revision of the constructor, then every [push], oldest first), the
    number of [shadowTreeDidFinishTransaction] calls on the delegate, the
    [mounted_] flags, the calls of the diff pass and the [onLayout] events. *)
Record ShadowTree : Type :=
  mkShadowTree {
    rootShadowNode_ : ShadowNode;
    revisionNumber_ : Z;
    mountingCoordinator_ : list ShadowTreeRevision;
    delegateNotifications : nat;
    mounted : gmap positive bool;
    flagEvents : list Event;
    layoutEvents : list (positive * Z)
  }.

(** A [ShadowTreeCommitTransaction]: the new root, or [None] for a null
    pointer. *)
Definition ShadowTreeCommitTransaction : Type := ShadowNode -> option ShadowNode.

(** What other threads do to the tree while an attempt holds no lock. *)
Definition Interference : Type := ShadowTree -> ShadowTree.

Definition noInterference : Interference := fun tree => tree.

(** Modelled from the spec: the member initialiser of [revisionNumber_] (in the
    header, which is not part of the sources); revision numbers start at 0 and
    are taken as unbounded integers.  The constructor hands the mounting
    coordinator the base revision, numbered 0. *)
Definition ShadowTree_new (root : ShadowNode) : ShadowTree :=
  {| rootShadowNode_ := root;
     revisionNumber_ := 0;
     mountingCoordinator_ := [ {| revisionRoot := root; revisionNumber := 0 |} ];
     delegateNotifications := 0%nat;
     mounted := ∅;
     flagEvents := [];
     layoutEvents := [] |}.

Section CommitEngine.

(** The layout collaborator: the nodes whose layout is affected, for a
    candidate root. *)
Variable layout : ShadowNode -> list LayoutableShadowNode.

(** [emitLayoutEvents] *)
Definition emitLayoutEvents (affectedLayoutableNodes : list LayoutableShadowNode)
  : list (positive * Z) :=
  flat_map
    (fun layoutableNode =>
       if negb (onLayout layoutableNode) then []
       else [(layoutableAddr layoutableNode, layoutMetrics layoutableNode)])
    affectedLayoutableNodes.

(** [ShadowTree::tryCommit].  [others] runs between the release of the
    shared lock and the acquisition of the unique lock. *)
Definition tryCommit (transaction : ShadowTreeCommitTransaction)
    (others : Interference) (tree : ShadowTree) : bool * ShadowTree :=
  let oldRootShadowNode := rootShadowNode_ tree in
  let newRoot := transaction oldRootShadowNode in
  let tree := others tree in
  match newRoot with
  | None => (false, tree)
  | Some newRootShadowNode =>
      let affectedLayoutableNodes := layout newRootShadowNode in
      if negb (samePointer (rootShadowNode_ tree) oldRootShadowNode) then
        (false, tree)
      else
        let calls :=
          updateMountedFlag (getChildren oldRootShadowNode)
                            (getChildren newRootShadowNode) in
        let revisionNumber := revisionNumber_ tree + 1 in
        (true,
         {| rootShadowNode_ := newRootShadowNode;
            revisionNumber_ := revisionNumber;
            mountingCoordinator_ :=
              mountingCoordinator_ tree
                ++ [ {| revisionRoot := newRootShadowNode;
                        revisionNumber := revisionNumber |} ];
            delegateNotifications := S (delegateNotifications tree);
            mounted := applyEvents (mounted tree) calls;
            flagEvents := flagEvents tree ++ calls;
            layoutEvents :=
              layoutEvents tree ++ emitLayoutEvents affectedLayoutableNodes |})
  end.

(** How a call of [commit] ends: it returns, or [assert(attempts < 1024)]
    fails. *)
Inductive CommitOutcome : Type :=
  | Returned
  | AssertionFailed.

(** The loop of [ShadowTree::commit]; [log] collects the results of the
    attempts made, in order, and [others n] is the interference met by
    attempt number [n]. *)
Fixpoint commit_loop (fuel : nat) (transaction : ShadowTreeCommitTransaction)
    (others : Z -> Interference) (attempts : Z) (log : list bool)
    (tree : ShadowTree) : option (CommitOutcome * list bool * ShadowTree) :=
  match fuel with
  | O => None
  | S fuel' =>
      let attempts := attempts + 1 in
      let '(committed, tree) := tryCommit transaction (others attempts) tree in
      if committed then Some (Returned, log ++ [true], tree)
      else if bool_decide (attempts < 1024) then
        commit_loop fuel' transaction others attempts (log ++ [false]) tree
      else Some (AssertionFailed, log ++ [false], tree)
  end.

(** [ShadowTree::commit]: the assertion bounds the loop by 1024 rounds. *)
Definition commit (transaction : ShadowTreeCommitTransaction)
    (others : Z -> Interference) (tree : ShadowTree)
  : option (CommitOutcome * list bool * ShadowTree) :=
  commit_loop 1024 transaction others 0 [] tree.

(** The address of the vector behind
    [ShadowNode::emptySharedShadowNodeSharedList()] and the address
    [std::make_shared] gives the copy of a root. *)
Variable emptySharedShadowNodeSharedList : positive.
Variable allocate : ShadowNode -> positive.

(** Modelled from the spec: the copy constructor of [RootShadowNode] with a
    fragment that replaces the children only; the copy is a new object of
    the same family. *)
Definition emptyTreeTransaction : ShadowTreeCommitTransaction :=
  fun oldRootShadowNode =>
    Some {| addr := allocate oldRootShadowNode;
            family := family oldRootShadowNode;
            state := state oldRootShadowNode;
            childrenRef := emptySharedShadowNodeSharedList;
            children := [] |}.

(** [ShadowTree::commitEmptyTree] *)
Definition commitEmptyTree (others : Z -> Interference) (tree : ShadowTree)
  : option (CommitOutcome * list bool * ShadowTree) :=
  commit emptyTreeTransaction others tree.

(** An example of interference: other threads whose calls of [tryCommit] run
    from start to end, one after the other, while this thread holds no lock.
    Calls that overlap after the lock is released are the matter of the
    scheduler below. *)
Definition otherThreads (transactions : list ShadowTreeCommitTransaction)
  : Interference :=
  fun tree =>
    foldl (fun t transaction => (tryCommit transaction noInterference t).2)
          tree transactions.

(** How far a call of [tryCommit] has come.  The stages are the stretches of
    the call between the points where it takes or releases [commitMutex_]
    and its calls on the event emitters, the mounting coordinator and the
    delegate, all made with no lock held: the root is read and the candidate
    built; the root is swapped, the flags updated and the revision number
    taken, under the unique lock; the layout events are emitted; the
    revision is pushed; the delegate is notified. *)
Inductive AttemptStage : Type :=
  | NotStarted
  | Built (oldRootShadowNode newRootShadowNode : ShadowNode)
  | Unlocked (newRootShadowNode : ShadowNode) (revisionNumber : Z)
  | EventsEmitted (newRootShadowNode : ShadowNode) (revisionNumber : Z)
  | RevisionPushed (newRootShadowNode : ShadowNode) (revisionNumber : Z)
  | Finished (committed : bool).

(** One stage of [ShadowTree::tryCommit]. *)
Definition attemptStep (transaction : ShadowTreeCommitTransaction)
    (stage : AttemptStage) (tree : ShadowTree) : AttemptStage * ShadowTree :=
  match stage with
  | NotStarted =>
      let oldRootShadowNode := rootShadowNode_ tree in
      match transaction oldRootShadowNode with
      | None => (Finished false, tree)
      | Some newRootShadowNode =>
          (Built oldRootShadowNode newRootShadowNode, tree)
      end
  | Built oldRootShadowNode newRootShadowNode =>
      if negb (samePointer (rootShadowNode_ tree) oldRootShadowNode) then
        (Finished false, tree)
      else
        let calls :=
          updateMountedFlag (getChildren oldRootShadowNode)
                            (getChildren newRootShadowNode) in
        let revisionNumber := revisionNumber_ tree + 1 in
        (Unlocked newRootShadowNode revisionNumber,
         {| rootShadowNode_ := newRootShadowNode;
            revisionNumber_ := revisionNumber;
            mountingCoordinator_ := mountingCoordinator_ tree;
            delegateNotifications := delegateNotifications tree;
            mounted := applyEvents (mounted tree) calls;
            flagEvents := flagEvents tree ++ calls;
            layoutEvents := layoutEvents tree |})
  | Unlocked newRootShadowNode revisionNumber =>
      (EventsEmitted newRootShadowNode revisionNumber,
       {| rootShadowNode_ := rootShadowNode_ tree;
          revisionNumber_ := revisionNumber_ tree;
          mountingCoordinator_ := mountingCoordinator_ tree;
          delegateNotifications := delegateNotifications tree;
          mounted := mounted tree;
          flagEvents := flagEvents tree;
          layoutEvents :=
            layoutEvents tree ++ emitLayoutEvents (layout newRootShadowNode) |})
  | EventsEmitted newRootShadowNode revisionNumber =>
      (RevisionPushed newRootShadowNode revisionNumber,
       {| rootShadowNode_ := rootShadowNode_ tree;
          revisionNumber_ := revisionNumber_ tree;
          mountingCoordinator_ :=
            mountingCoordinator_ tree
              ++ [ {| revisionRoot := newRootShadowNode;
                      revisionNumber := revisionNumber |} ];
          delegateNotifications := delegateNotifications tree;
          mounted := mounted tree;
          flagEvents := flagEvents tree;
          layoutEvents := layoutEvents tree |})
  | RevisionPushed newRootShadowNode revisionNumber =>
      (Finished true,
       {| rootShadowNode_ := rootShadowNode_ tree;
          revisionNumber_ := revisionNumber_ tree;
          mountingCoordinator_ := mountingCoordinator_ tree;
          delegateNotifications := S (delegateNotifications tree);
          mounted := mounted tree;
          flagEvents := flagEvents tree;
          layoutEvents := layoutEvents tree |})
  | Finished committed => (Finished committed, tree)
  end.

(** Calls of [tryCommit] in progress on one tree, each with its transaction,
    and the scheduler: the call picked makes its next stage.  A schedule is
    the list of the calls picked, in order; a call that has finished, or an
    index that is no call, changes nothing. *)
Definition schedulerStep
    (st : list (ShadowTreeCommitTransaction * AttemptStage) * ShadowTree)
    (i : nat) : list (ShadowTreeCommitTransaction * AttemptStage) * ShadowTree :=
  match st.1 !! i with
  | None => st
  | Some (transaction, stage) =>
      let '(stage', tree') := attemptStep transaction stage st.2 in
      (<[i := (transaction, stage')]> st.1, tree')
  end.

Definition runSchedule (schedule : list nat)
    (st : list (ShadowTreeCommitTransaction * AttemptStage) * ShadowTree)
  : list (ShadowTreeCommitTransaction * AttemptStage) * ShadowTree :=
  foldl schedulerStep st schedule.

End CommitEngine.

(** ** Vocabulary of the statements *)

(** The tree after the attempts numbered [first + 1] to [first + k] of one
    call of [commit] have all failed: a failed attempt changes nothing, so
    the tree is what the other threads made of it meanwhile. *)
Definition afterFailedAttempts (others : Z -> Interference) (first k : nat)
    (tree : ShadowTree) : ShadowTree :=
  foldl (fun t i => others (Z.of_nat i) t) tree (seq (S first) k).

(** The number of failed attempts in the log of a call of [commit]. *)
Definition failedAttempts (log : list bool) : nat :=
  length (filter (fun committed => committed = false) log).

(** The revision numbers the mounting coordinator has received, oldest
    first. *)
Definition observedNumbers (tree : ShadowTree) : list Z :=
  revisionNumber <$> mountingCoordinator_ tree.

(** All nodes of a subtree, and of a list of subtrees, parents first. *)
Fixpoint subtreeNodes (n : ShadowNode) : list ShadowNode :=
  n :: flat_map subtreeNodes (children n).

Definition forestNodes (l : list ShadowNode) : list ShadowNode :=
  flat_map subtreeNodes l.

(** The first index at which two sibling lists stop sharing a family: one of
    them ends there, or the two entries are of different families. *)
Fixpoint familyBoundary (oldRest newRest : list ShadowNode) : nat :=
  match oldRest, newRest with
  | oldChild :: oldRest', newChild :: newRest' =>
      if sameFamily oldChild newChild then S (familyBoundary oldRest' newRest')
      else 0%nat
  | _, _ => 0%nat
  end.

(** The value of [lastIndexAfterFirstStage]: stage 1 passes the pairs that are
    one object or of one family. *)
Fixpoint diffBoundary (oldRest newRest : list ShadowNode) : nat :=
  match oldRest, newRest with
  | oldChild :: oldRest', newChild :: newRest' =>
      if samePointer oldChild newChild || sameFamily oldChild newChild
      then S (diffBoundary oldRest' newRest')
      else 0%nat
  | _, _ => 0%nat
  end.

(** The calls one transition of a mounted flag consists of: setting the flag
    and, when the flag becomes [true], committing the state of the node. *)
Definition transitionCalls (t : ShadowNode * bool) : list Event :=
  if t.2 then SetMounted t.1 true :: CommitState t.1
  else [SetMounted t.1 false].

(** The calls stage 1 makes for one pair of entries. *)
Definition updatedPairCalls (p : ShadowNode * ShadowNode) : list Event :=
  if samePointer p.1 p.2 then []
  else SetMounted p.2 true
         :: CommitState p.2
         ++ SetMounted p.1 false
         :: updateMountedFlag (getChildren p.1) (getChildren p.2).

(** The calls stage 2 makes for one new entry and stage 3 for one old
    entry. *)
Definition insertedCalls (newChild : ShadowNode) : list Event :=
  SetMounted newChild true
    :: CommitState newChild
    ++ updateMountedFlag temporaryEmptyList (getChildren newChild).

Definition removedCalls (oldChild : ShadowNode) : list Event :=
  SetMounted oldChild false
    :: updateMountedFlag (getChildren oldChild) temporaryEmptyList.

(** The calls of the three stages on two sibling lists. *)
Definition stagesCalls (oldItems newItems : list ShadowNode) : list Event :=
  let b := diffBoundary oldItems newItems in
  flat_map updatedPairCalls (zip (take b oldItems) (take b newItems))
    ++ flat_map insertedCalls (drop b newItems)
    ++ flat_map removedCalls (drop b oldItems).

(** A transition on a node of the new forest (to mounted) or of the old
    forest (to unmounted). *)
Definition transitionWithin (oldItems newItems : list ShadowNode)
    (t : ShadowNode * bool) : Prop :=
  if t.2 then t.1 ∈ forestNodes newItems else t.1 ∈ forestNodes oldItems.

(** Two snapshots of one heap: an address stands for one object, so nodes of
    the two trees at the same address are the same node, and child vectors at
    the same address have the same entries. *)
Record sameHeap (oldChildren newChildren : SharedShadowNodeList) : Prop :=
  mkSameHeap {
    sameHeap_list :
      sameListObject oldChildren newChildren = true ->
      items oldChildren = items newChildren;
    sameHeap_node :
      forall o n,
        o ∈ forestNodes (items oldChildren) ->
        n ∈ forestNodes (items newChildren) ->
        addr o = addr n -> o = n;
    sameHeap_children :
      forall o n,
        o ∈ forestNodes (items oldChildren) ->
        n ∈ forestNodes (items newChildren) ->
        childrenRef o = childrenRef n -> children o = children n
  }.

(** Calls of [tryCommit] that have not started. *)
Definition notStarted (transactions : list ShadowTreeCommitTransaction)
  : list (ShadowTreeCommitTransaction * AttemptStage) :=
  (fun transaction => (transaction, NotStarted)) <$> transactions.

(** The revision a call holds between its swap and its push. *)
Definition pendingRevision (a : ShadowTreeCommitTransaction * AttemptStage)
  : option ShadowTreeRevision :=
  match a.2 with
  | Unlocked newRootShadowNode revisionNumber
  | EventsEmitted newRootShadowNode revisionNumber =>
      Some {| revisionRoot := newRootShadowNode;
              revisionNumber := revisionNumber |}
  | _ => None
  end.

Definition pendingRevisions
    (pool : list (ShadowTreeCommitTransaction * AttemptStage))
  : list ShadowTreeRevision :=
  omap pendingRevision pool.

(** A call between its push and its call on the delegate. *)
Definition awaitsNotification (a : ShadowTreeCommitTransaction * AttemptStage)
  : bool :=
  match a.2 with
  | RevisionPushed _ _ => true
  | _ => false
  end.

(** Every call has started and finished, or not started at all. *)
Definition noneInProgress
    (pool : list (ShadowTreeCommitTransaction * AttemptStage)) : Prop :=
  Forall (fun a => a.2 = NotStarted \/ exists committed, a.2 = Finished committed)
         pool.

(** What every interleaving keeps.  The revisions pushed and those held by
    calls past their swap carry, all together, each of the numbers 0 to
    [revisionNumber_] once; the revision with the current root and number is
    among them; the coordinator has received the base revision and one
    revision for each notification made or due. *)
Definition inStep (pool : list (ShadowTreeCommitTransaction * AttemptStage))
    (tree : ShadowTree) : Prop :=
  0 <= revisionNumber_ tree
  /\ revisionNumber <$> (mountingCoordinator_ tree ++ pendingRevisions pool)
     ≡ₚ Z.of_nat <$> seq 0 (S (Z.to_nat (revisionNumber_ tree)))
  /\ {| revisionRoot := rootShadowNode_ tree;
        revisionNumber := revisionNumber_ tree |}
     ∈ mountingCoordinator_ tree ++ pendingRevisions pool
  /\ length (mountingCoordinator_ tree)
     = S (delegateNotifications tree
          + length (filter (fun a => awaitsNotification a = true) pool)).

(** The mounting coordinator has received the revisions numbered 0, 1, 2, ...
    in this order, up to the current revision number. *)
Definition consecutiveFromZero (tree : ShadowTree) : Prop :=
  observedNumbers tree
  = Z.of_nat <$> seq 0 (length (mountingCoordinator_ tree))
  /\ revisionNumber_ tree + 1 = Z.of_nat (length (mountingCoordinator_ tree))
  /\ 0 <= revisionNumber_ tree.

(** ** A small tree, for the examples

    A root with two children; the second has a child of its own.  The next
    revision keeps the family of the first child in a new node that carries a
    state handle, and replaces the second child by a node of another
    family. *)
Definition oldA : ShadowNode := mkShadowNode 2 2 None 20 [].
Definition oldB1 : ShadowNode := mkShadowNode 6 6 None 60 [].
Definition oldB : ShadowNode := mkShadowNode 3 3 None 30 [oldB1].
Definition newA : ShadowNode := mkShadowNode 4 2 (Some 7%positive) 40 [].
Definition newC : ShadowNode := mkShadowNode 5 5 (Some 8%positive) 50 [].
Definition kept : ShadowNode := mkShadowNode 9 9 (Some 3%positive) 90 [].

Definition exampleOld : SharedShadowNodeList := mkList (Some 10%positive) [oldA; oldB].
Definition exampleNew : SharedShadowNodeList := mkList (Some 11%positive) [newA; newC].
Definition exampleOldKept : SharedShadowNodeList :=
  mkList (Some 10%positive) [kept; oldA].
Definition exampleNewKept : SharedShadowNodeList :=
  mkList (Some 11%positive) [kept; newA].

Definition exampleRoot : ShadowNode := mkShadowNode 1 1 None 10 [oldA; oldB].
Definition exampleTree : ShadowTree := ShadowTree_new exampleRoot.

Definition exampleLayout (root : ShadowNode) : list LayoutableShadowNode :=
  [ mkLayoutable (addr root) true 0 ].

(** A transaction that always aborts, one that replaces the children of the
    root, and the transaction of [commitEmptyTree]. *)
Definition abortTransaction : ShadowTreeCommitTransaction := fun _ => None.

Definition replaceTransaction : ShadowTreeCommitTransaction :=
  fun oldRootShadowNode =>
    Some (mkShadowNode (addr oldRootShadowNode + 100)
            (family oldRootShadowNode) (state oldRootShadowNode) 11
            [newA; newC]).

Definition exampleEmptyTransaction : ShadowTreeCommitTransaction :=
  emptyTreeTransaction 99 (fun r => (addr r + 100)%positive).

(** Another thread commits during the first attempt only. *)
Definition exampleOthers (attempt : Z) : Interference :=
  if bool_decide (attempt = 1)
  then otherThreads exampleLayout [exampleEmptyTransaction]
  else noInterference.

(** The same two nodes in the other order, in a new vector. *)
Definition exampleSwapped : SharedShadowNodeList :=
  mkList (Some 11%positive) [oldB; oldA].

(** A vector of its own that holds the entries of [exampleOldKept]. *)
Definition exampleSameEntries : SharedShadowNodeList :=
  mkList (Some 12%positive) [kept; oldA].

(** A transaction that copies the root and keeps its child vector. *)
Definition cloneTransaction : ShadowTreeCommitTransaction :=
  fun oldRootShadowNode =>
    Some (mkShadowNode (addr oldRootShadowNode + 100)
            (family oldRootShadowNode) (state oldRootShadowNode)
            (childrenRef oldRootShadowNode) (children oldRootShadowNode)).

(** Layoutable nodes, one of which asked for [onLayout]. *)
Definition exampleAffected : list LayoutableShadowNode :=
  [ mkLayoutable 2 false 10; mkLayoutable 3 true 20; mkLayoutable 4 false 30 ].


(** Two calls of [tryCommit] on two threads.  In [exampleOverlap] the first
    call swaps its root in and is then overtaken: the second call reads the
    new root, swaps, pushes and notifies before the first call pushes.  In
    [exampleInTurn] the second call starts when the first has finished. *)
Definition examplePool : list (ShadowTreeCommitTransaction * AttemptStage) :=
  notStarted [replaceTransaction; cloneTransaction].

Definition exampleOverlap : list nat :=
  [0; 0; 1; 1; 1; 1; 1; 0; 0; 0]%nat.

Definition exampleInTurn : list nat :=
  [0; 1]%nat ≫= replicate 5.

(** Case analysis on the membership of a node in an explicit list. *)
Ltac enumerate_nodes H :=
  repeat (apply elem_of_cons in H as [->|H]);
  try (by apply elem_of_nil in H).

(** ** Termination of the diff pass: the equation of the source *)

Lemma nodeHeight_eq n : nodeHeight n = S (forestHeight (children n)).
Proof. destruct n; reflexivity. Qed.

Lemma forestHeight_cons c l :
  forestHeight (c :: l) = Nat.max (nodeHeight c) (forestHeight l).
Proof. reflexivity. Qed.

Lemma forestHeight_elem c l : c ∈ l -> (nodeHeight c <= forestHeight l)%nat.
Proof.
  induction 1 as [c l|c d l _ IH]; rewrite forestHeight_cons; lia.
Qed.

Lemma forestHeight_children c l :
  c ∈ l -> (forestHeight (children c) < forestHeight l)%nat.
Proof.
  intros Hc. apply forestHeight_elem in Hc. rewrite nodeHeight_eq in Hc. lia.
Qed.

Lemma forestHeight_drop k l : (forestHeight (drop k l) <= forestHeight l)%nat.
Proof.
  revert k; induction l as [|c l IH]; intros [|k]; simpl; try lia.
  fold (forestHeight l). fold (forestHeight (drop k l)).
  specialize (IH k). lia.
Qed.

Section BodyExtensional.

Variables recur1 recur2
  : SharedShadowNodeList -> SharedShadowNodeList -> list Event.
Variable h : nat.
Hypothesis recur_agree :
  forall o n,
    (forestHeight (items o) < h)%nat -> (forestHeight (items n) < h)%nat ->
    recur1 o n = recur2 o n.

Lemma stage1_ext oldRest newRest index :
  (forestHeight oldRest <= h)%nat -> (forestHeight newRest <= h)%nat ->
  stage1 recur1 oldRest newRest index = stage1 recur2 oldRest newRest index.
Proof.
  revert newRest index.
  induction oldRest as [|o oldRest IH]; intros [|n newRest] index Ho Hn;
    try reflexivity.
  rewrite forestHeight_cons in Ho, Hn. simpl.
  rewrite IH by lia.
  rewrite recur_agree; [reflexivity| |]; simpl.
  - pose proof (nodeHeight_eq o). lia.
  - pose proof (nodeHeight_eq n). lia.
Qed.

Lemma stage2_ext newRest :
  (forestHeight newRest <= h)%nat ->
  stage2 recur1 newRest = stage2 recur2 newRest.
Proof.
  induction newRest as [|n newRest IH]; intros Hn; [reflexivity|].
  rewrite forestHeight_cons in Hn. simpl.
  rewrite IH by lia.
  rewrite recur_agree; [reflexivity| |]; simpl.
  - pose proof (nodeHeight_eq n). lia.
  - pose proof (nodeHeight_eq n). lia.
Qed.

Lemma stage3_ext oldRest :
  (forestHeight oldRest <= h)%nat ->
  stage3 recur1 oldRest = stage3 recur2 oldRest.
Proof.
  induction oldRest as [|o oldRest IH]; intros Ho; [reflexivity|].
  rewrite forestHeight_cons in Ho. simpl.
  rewrite IH by lia.
  rewrite recur_agree; [reflexivity| |]; simpl.
  - pose proof (nodeHeight_eq o). lia.
  - pose proof (nodeHeight_eq o). lia.
Qed.

Lemma updateMountedFlag_body_ext oldChildren newChildren :
  (forestHeight (items oldChildren) <= h)%nat ->
  (forestHeight (items newChildren) <= h)%nat ->
  updateMountedFlag_body recur1 oldChildren newChildren
  = updateMountedFlag_body recur2 oldChildren newChildren.
Proof.
  intros Ho Hn. unfold updateMountedFlag_body.
  rewrite stage1_ext by assumption.
  destruct (stage1 recur2 _ _ _) as [last updated].
  rewrite stage2_ext, stage3_ext; [reflexivity| |].
  - pose proof (forestHeight_drop last (items oldChildren)). lia.
  - pose proof (forestHeight_drop last (items newChildren)). lia.
Qed.

End BodyExtensional.

Lemma updateMountedFlag_depth_irrelevant d1 :
  forall d2 oldChildren newChildren,
    (forestHeight (items oldChildren) < d1)%nat ->
    (forestHeight (items newChildren) < d1)%nat ->
    (forestHeight (items oldChildren) < d2)%nat ->
    (forestHeight (items newChildren) < d2)%nat ->
    updateMountedFlag_depth d1 oldChildren newChildren
    = updateMountedFlag_depth d2 oldChildren newChildren.
Proof.
  induction d1 as [|d1 IH]; intros [|d2] old new H1 H2 H3 H4; try lia.
  simpl.
  apply updateMountedFlag_body_ext
    with (h := Nat.max (forestHeight (items old)) (forestHeight (items new)));
    [|lia|lia].
  intros o n Ho Hn. apply IH; lia.
Qed.

(** The recursion of the source: [updateMountedFlag] is its own body. *)
Lemma updateMountedFlag_unfold oldChildren newChildren :
  updateMountedFlag oldChildren newChildren
  = updateMountedFlag_body updateMountedFlag oldChildren newChildren.
Proof.
  unfold updateMountedFlag at 1. simpl.
  apply updateMountedFlag_body_ext
    with (h := Nat.max (forestHeight (items oldChildren))
                       (forestHeight (items newChildren)));
    [|lia|lia].
  intros o n Ho Hn. unfold updateMountedFlag.
  apply updateMountedFlag_depth_irrelevant; lia.
Qed.

(** ** The three stages *)

Lemma stage2_flat_map l :
  stage2 updateMountedFlag l = flat_map insertedCalls l.
Proof.
  induction l as [|n l IH]; [reflexivity|].
  simpl. rewrite IH. unfold insertedCalls. simpl.
  by rewrite <- app_assoc.
Qed.

Lemma stage3_flat_map l :
  stage3 updateMountedFlag l = flat_map removedCalls l.
Proof.
  induction l as [|o l IH]; [reflexivity|].
  simpl. by rewrite IH.
Qed.

Lemma stage1_eq oldRest : forall newRest index,
  let b := diffBoundary oldRest newRest in
  stage1 updateMountedFlag oldRest newRest index
  = ((index + b)%nat,
     flat_map updatedPairCalls (zip (take b oldRest) (take b newRest))).
Proof.
  induction oldRest as [|o oldRest IH]; intros [|n newRest] index; simpl;
    try (f_equal; lia).
  destruct (samePointer o n) eqn:Hp; simpl.
  - rewrite IH. simpl. unfold updatedPairCalls at 2. simpl. rewrite Hp.
    simpl. f_equal. lia.
  - destruct (sameFamily o n) eqn:Hf; simpl.
    + rewrite IH. simpl. f_equal; [lia|].
      unfold updatedPairCalls at 2. simpl. rewrite Hp.
      simpl. by rewrite <- !app_assoc.
    + f_equal. lia.
Qed.

(** The pass, stage by stage. *)
Lemma updateMountedFlag_stages oldChildren newChildren :
  sameListObject oldChildren newChildren = false ->
  let b := diffBoundary (items oldChildren) (items newChildren) in
  updateMountedFlag oldChildren newChildren
  = flat_map updatedPairCalls
      (zip (take b (items oldChildren)) (take b (items newChildren)))
    ++ flat_map insertedCalls (drop b (items newChildren))
    ++ flat_map removedCalls (drop b (items oldChildren)).
Proof.
  intros Hobj b. rewrite updateMountedFlag_unfold.
  unfold updateMountedFlag_body. rewrite Hobj.
  destruct (bool_decide (length (items oldChildren) = 0%nat)
            && bool_decide (length (items newChildren) = 0%nat)) eqn:Hempty.
  - apply andb_prop in Hempty as [Ho Hn].
    apply bool_decide_eq_true in Ho, Hn.
    apply length_zero_iff_nil in Ho, Hn.
    subst b. rewrite Ho, Hn. reflexivity.
  - rewrite stage1_eq. simpl.
    by rewrite stage2_flat_map, stage3_flat_map.
Qed.

Lemma updateMountedFlag_same_object oldChildren newChildren :
  sameListObject oldChildren newChildren = true ->
  updateMountedFlag oldChildren newChildren = [].
Proof.
  intros Hobj. rewrite updateMountedFlag_unfold.
  unfold updateMountedFlag_body. by rewrite Hobj.
Qed.

Lemma sameListObject_temporary_l l : sameListObject temporaryEmptyList l = false.
Proof. reflexivity. Qed.

Lemma sameListObject_temporary_r l : sameListObject l temporaryEmptyList = false.
Proof. unfold sameListObject. by destruct (listRef l). Qed.

Lemma diffBoundary_nil_l l : diffBoundary [] l = 0%nat.
Proof. reflexivity. Qed.

Lemma diffBoundary_nil_r l : diffBoundary l [] = 0%nat.
Proof. by destruct l. Qed.

(** Against an empty old list every entry is inserted, against an empty new
    list every entry is removed. *)
Lemma updateMountedFlag_inserted newChildren :
  updateMountedFlag temporaryEmptyList newChildren
  = flat_map insertedCalls (items newChildren).
Proof.
  rewrite updateMountedFlag_stages by apply sameListObject_temporary_l.
  simpl. by rewrite app_nil_r.
Qed.

Lemma updateMountedFlag_removed oldChildren :
  updateMountedFlag oldChildren temporaryEmptyList
  = flat_map removedCalls (items oldChildren).
Proof.
  rewrite updateMountedFlag_stages by apply sameListObject_temporary_r.
  rewrite diffBoundary_nil_r. simpl. by rewrite drop_0.
Qed.

(** Induction along the recursion of the pass. *)
Lemma updateMountedFlag_ind
    (P : SharedShadowNodeList -> SharedShadowNodeList -> list Event -> Prop) :
  (forall oldChildren newChildren,
      sameListObject oldChildren newChildren = true ->
      P oldChildren newChildren []) ->
  (forall oldChildren newChildren,
      sameListObject oldChildren newChildren = false ->
      let b := diffBoundary (items oldChildren) (items newChildren) in
      (forall o n,
          (o, n) ∈ zip (take b (items oldChildren)) (take b (items newChildren)) ->
          P (getChildren o) (getChildren n)
            (updateMountedFlag (getChildren o) (getChildren n))) ->
      (forall n,
          n ∈ drop b (items newChildren) ->
          P temporaryEmptyList (getChildren n)
            (updateMountedFlag temporaryEmptyList (getChildren n))) ->
      (forall o,
          o ∈ drop b (items oldChildren) ->
          P (getChildren o) temporaryEmptyList
            (updateMountedFlag (getChildren o) temporaryEmptyList)) ->
      P oldChildren newChildren
        (flat_map updatedPairCalls
           (zip (take b (items oldChildren)) (take b (items newChildren)))
         ++ flat_map insertedCalls (drop b (items newChildren))
         ++ flat_map removedCalls (drop b (items oldChildren)))) ->
  forall oldChildren newChildren,
    P oldChildren newChildren (updateMountedFlag oldChildren newChildren).
Proof.
  intros Hsame Hstages old new.
  remember (forestHeight (items old) + forestHeight (items new))%nat as m eqn:Hm.
  revert old new Hm.
  induction (lt_wf m) as [m _ IH]; intros old new ->.
  destruct (sameListObject old new) eqn:Hobj.
  - rewrite updateMountedFlag_same_object by done. by apply Hsame.
  - rewrite updateMountedFlag_stages by done. apply Hstages; [done|..].
    + intros o n Hin.
      apply elem_of_zip_l in Hin as Ho. apply elem_of_zip_r in Hin as Hn.
      apply elem_of_take in Ho as (i & Ho & _).
      apply elem_of_take in Hn as (j & Hn & _).
      apply list_elem_of_lookup_2, forestHeight_children in Ho, Hn.
      eapply IH; [|reflexivity]. simpl. lia.
    + intros n Hn. apply subseteq_drop, forestHeight_children in Hn.
      eapply IH; [|reflexivity]. simpl. lia.
    + intros o Ho. apply subseteq_drop, forestHeight_children in Ho.
      eapply IH; [|reflexivity]. simpl. lia.
Qed.

(** ** Nodes of a forest *)

Lemma subtreeNodes_eq n : subtreeNodes n = n :: forestNodes (children n).
Proof. destruct n; reflexivity. Qed.

Lemma elem_of_forestNodes x l :
  x ∈ forestNodes l <->
  exists n, n ∈ l /\ (x = n \/ x ∈ forestNodes (children n)).
Proof.
  unfold forestNodes at 1. rewrite list_elem_of_In, in_flat_map. split.
  - intros (n & Hn & Hx). exists n. rewrite <- list_elem_of_In in Hn, Hx.
    rewrite subtreeNodes_eq, elem_of_cons in Hx. done.
  - intros (n & Hn & Hx). exists n. rewrite <- !list_elem_of_In.
    rewrite subtreeNodes_eq, elem_of_cons. done.
Qed.

Lemma forestNodes_root n l : n ∈ l -> n ∈ forestNodes l.
Proof. intros Hn. apply elem_of_forestNodes. eauto. Qed.

Lemma forestNodes_child x n l :
  n ∈ l -> x ∈ forestNodes (children n) -> x ∈ forestNodes l.
Proof. intros Hn Hx. apply elem_of_forestNodes. eauto. Qed.

Lemma forestNodes_below x n l :
  n ∈ forestNodes l -> x ∈ forestNodes (children n) -> x ∈ forestNodes l.
Proof.
  remember (forestHeight l) as m eqn:Hm. revert l Hm.
  induction (lt_wf m) as [m _ IH]; intros l -> Hn Hx.
  apply elem_of_forestNodes in Hn as (c & Hc & [->|Hn]).
  - by eapply forestNodes_child.
  - eapply forestNodes_child; [done|].
    eapply IH; [|reflexivity|done|done]. by apply forestHeight_children.
Qed.

(** ** The calls of the pass, transition by transition *)

Lemma flat_map_transitions {A} (f : A -> list Event)
    (Q : ShadowNode * bool -> Prop) (l : list A) :
  (forall x, x ∈ l ->
     exists ts, f x = flat_map transitionCalls ts /\ Forall Q ts) ->
  exists ts, flat_map f l = flat_map transitionCalls ts /\ Forall Q ts.
Proof.
  induction l as [|x l IH]; intros Hl.
  - exists []. split; [reflexivity|constructor].
  - destruct (Hl x) as (ts1 & E1 & F1); [left|].
    destruct IH as (ts2 & E2 & F2); [intros y Hy; apply Hl; by right|].
    exists (ts1 ++ ts2). split.
    + simpl. by rewrite flat_map_app, E1, E2.
    + by apply Forall_app.
Qed.

Lemma transitionWithin_children_pair oldItems newItems o n t :
  o ∈ oldItems -> n ∈ newItems ->
  transitionWithin (children o) (children n) t ->
  transitionWithin oldItems newItems t.
Proof.
  unfold transitionWithin. destruct t as [x []]; simpl; intros Ho Hn Hx.
  - by eapply forestNodes_child.
  - by eapply forestNodes_child.
Qed.

(** The calls of the pass are those of a sequence of transitions, each on a
    node of the old forest (unmounted) or of the new one (mounted). *)
Lemma updateMountedFlag_transitions oldChildren newChildren :
  exists ts,
    updateMountedFlag oldChildren newChildren = flat_map transitionCalls ts
    /\ Forall (transitionWithin (items oldChildren) (items newChildren)) ts.
Proof.
  apply (updateMountedFlag_ind
           (fun old new calls =>
              exists ts, calls = flat_map transitionCalls ts
                         /\ Forall (transitionWithin (items old) (items new)) ts)).
  - intros old new _. exists []. split; [reflexivity|constructor].
  - intros old new _ b IHpair IHins IHrem.
    destruct (flat_map_transitions updatedPairCalls
                (transitionWithin (items old) (items new))
                (zip (take b (items old)) (take b (items new))))
      as (ts1 & E1 & F1).
    { intros [o n] Hin. unfold updatedPairCalls. simpl.
      destruct (samePointer o n).
      { exists []. split; [reflexivity|constructor]. }
      destruct (IHpair o n Hin) as (ts & E & F).
      apply elem_of_zip_l in Hin as Ho. apply elem_of_zip_r in Hin as Hn.
      apply subseteq_take in Ho, Hn.
      exists ((n, true) :: (o, false) :: ts). split.
      - simpl. rewrite E. unfold transitionCalls at 1. simpl.
        by rewrite <- ?app_assoc.
      - constructor; [by apply forestNodes_root|].
        constructor; [by apply forestNodes_root|].
        eapply Forall_impl; [exact F|].
        intros t. by apply transitionWithin_children_pair. }
    destruct (flat_map_transitions insertedCalls
                (transitionWithin (items old) (items new))
                (drop b (items new)))
      as (ts2 & E2 & F2).
    { intros n Hn. destruct (IHins n Hn) as (ts & E & F).
      apply subseteq_drop in Hn.
      exists ((n, true) :: ts). split.
      - unfold insertedCalls. simpl. rewrite E. unfold transitionCalls at 1.
        simpl. by rewrite <- ?app_assoc.
      - constructor; [by apply forestNodes_root|].
        eapply Forall_impl; [exact F|].
        intros [x []]; unfold transitionWithin; simpl; intros Hx.
        + by eapply forestNodes_child.
        + by apply elem_of_nil in Hx. }
    destruct (flat_map_transitions removedCalls
                (transitionWithin (items old) (items new))
                (drop b (items old)))
      as (ts3 & E3 & F3).
    { intros o Ho. destruct (IHrem o Ho) as (ts & E & F).
      apply subseteq_drop in Ho.
      exists ((o, false) :: ts). split.
      - unfold removedCalls. simpl. by rewrite E.
      - constructor; [by apply forestNodes_root|].
        eapply Forall_impl; [exact F|].
        intros [x []]; unfold transitionWithin; simpl; intros Hx.
        + by apply elem_of_nil in Hx.
        + by eapply forestNodes_child. }
    exists (ts1 ++ ts2 ++ ts3). split.
    + by rewrite !flat_map_app, E1, E2, E3.
    + by rewrite !Forall_app.
Qed.

Lemma transitions_commit_follows ts : forall k n h,
  flat_map transitionCalls ts !! k = Some (SetMounted n true) ->
  state n = Some h ->
  flat_map transitionCalls ts !! S k = Some (StateCommit h n).
Proof.
  induction ts as [|[x b] ts IH]; intros k n h Hk Hst; [done|].
  simpl in Hk |- *. unfold transitionCalls in Hk |- * at 1. simpl in *.
  destruct b; simpl in *.
  - unfold CommitState in *. destruct (state x) as [hx|] eqn:Hx; simpl in *.
    + destruct k as [|[|k]]; simpl in *.
      * injection Hk as ->. congruence.
      * discriminate.
      * by apply IH.
    + destruct k as [|k]; simpl in *.
      * injection Hk as ->. congruence.
      * by apply IH.
  - destruct k as [|k]; simpl in *; [discriminate|]. by apply IH.
Qed.

Lemma transitions_commit_preceded ts : forall k h n,
  flat_map transitionCalls ts !! k = Some (StateCommit h n) ->
  exists k', k = S k'
    /\ flat_map transitionCalls ts !! k' = Some (SetMounted n true)
    /\ state n = Some h.
Proof.
  induction ts as [|[x b] ts IH]; intros k h n Hk; [done|].
  simpl in Hk |- *. unfold transitionCalls in Hk |- * at 1. simpl in *.
  destruct b; simpl in *.
  - unfold CommitState in *. destruct (state x) as [hx|] eqn:Hx; simpl in *.
    + destruct k as [|[|k]]; simpl in *.
      * discriminate.
      * injection Hk as -> ->. exists 0%nat. done.
      * destruct (IH _ _ _ Hk) as (k' & -> & Hm & Hs).
        exists (S (S k')). done.
    + destruct k as [|k]; simpl in *; [discriminate|].
      destruct (IH _ _ _ Hk) as (k' & -> & Hm & Hs).
      exists (S k'). done.
  - destruct k as [|k]; simpl in *; [discriminate|].
    destruct (IH _ _ _ Hk) as (k' & -> & Hm & Hs).
    exists (S k'). done.
Qed.

(** ** The boundary of stage 1 *)

Lemma diffBoundary_lookup oldRest : forall newRest i,
  (i < diffBoundary oldRest newRest)%nat ->
  exists o n,
    oldRest !! i = Some o /\ newRest !! i = Some n
    /\ samePointer o n || sameFamily o n = true.
Proof.
  induction oldRest as [|o oldRest IH]; intros [|n newRest] i Hi;
    simpl in Hi; try lia.
  destruct (samePointer o n || sameFamily o n) eqn:Hpass; [|lia].
  destruct i as [|i]; simpl.
  - exists o, n. done.
  - apply IH. lia.
Qed.

Lemma diffBoundary_stop oldRest : forall newRest o n,
  oldRest !! diffBoundary oldRest newRest = Some o ->
  newRest !! diffBoundary oldRest newRest = Some n ->
  samePointer o n = false /\ sameFamily o n = false.
Proof.
  induction oldRest as [|o' oldRest IH]; intros [|n' newRest] o n Ho Hn;
    simpl in *; try done.
  destruct (samePointer o' n' || sameFamily o' n') eqn:Hpass; simpl in *.
  - by eapply IH.
  - injection Ho as ->. injection Hn as ->. by apply orb_false_elim.
Qed.

Lemma diffBoundary_reach oldRest : forall newRest i,
  (forall j, (j <= i)%nat ->
     exists o n, oldRest !! j = Some o /\ newRest !! j = Some n
                 /\ samePointer o n || sameFamily o n = true) ->
  (i < diffBoundary oldRest newRest)%nat.
Proof.
  induction oldRest as [|o oldRest IH]; intros newRest i Hall.
  - destruct (Hall 0%nat) as (? & ? & ? & _); [lia|done].
  - destruct newRest as [|n newRest].
    + destruct (Hall 0%nat) as (? & ? & _ & ? & _); [lia|done].
    + simpl. destruct (Hall 0%nat) as (o0 & n0 & Ho & Hn & Hpass); [lia|].
      simpl in Ho, Hn. injection Ho as <-. injection Hn as <-.
      rewrite Hpass. destruct i as [|i]; [lia|].
      apply ->Nat.succ_lt_mono. apply IH. intros j Hj.
      destruct (Hall (S j)) as (o1 & n1 & H1); [lia|]. by exists o1, n1.
Qed.

Lemma diffBoundary_family oldRest : forall newRest,
  (forall i o n,
     oldRest !! i = Some o -> newRest !! i = Some n ->
     addr o = addr n -> family o = family n) ->
  diffBoundary oldRest newRest = familyBoundary oldRest newRest.
Proof.
  induction oldRest as [|o oldRest IH]; intros [|n newRest] Hheap;
    simpl; try done.
  rewrite IH by (intros i; apply (Hheap (S i))).
  unfold samePointer, sameFamily.
  destruct (bool_decide_reflect (family o = family n)) as [Hf|Hf].
  - by rewrite orb_true_r.
  - rewrite orb_false_r. rewrite bool_decide_eq_false_2; [done|].
    intros Hp. by apply Hf, (Hheap 0%nat).
Qed.

Lemma familyBoundary_lookup oldRest : forall newRest i,
  (i < familyBoundary oldRest newRest)%nat ->
  exists o n,
    oldRest !! i = Some o /\ newRest !! i = Some n /\ family o = family n.
Proof.
  induction oldRest as [|o oldRest IH]; intros [|n newRest] i Hi;
    simpl in Hi; try lia.
  destruct (sameFamily o n) eqn:Hf; [|lia].
  destruct i as [|i]; simpl.
  - exists o, n. by apply bool_decide_eq_true in Hf.
  - apply IH. lia.
Qed.

Lemma familyBoundary_stop oldRest : forall newRest o n,
  oldRest !! familyBoundary oldRest newRest = Some o ->
  newRest !! familyBoundary oldRest newRest = Some n ->
  family o <> family n.
Proof.
  induction oldRest as [|o' oldRest IH]; intros [|n' newRest] o n Ho Hn;
    simpl in *; try done.
  destruct (sameFamily o' n') eqn:Hf; simpl in *.
  - by eapply IH.
  - injection Ho as ->. injection Hn as ->. by apply bool_decide_eq_false in Hf.
Qed.

Lemma zip_take_lookup (oldRest newRest : list ShadowNode) b i o n :
  (i < b)%nat -> oldRest !! i = Some o -> newRest !! i = Some n ->
  zip (take b oldRest) (take b newRest) !! i = Some (o, n).
Proof.
  intros Hi Ho Hn. apply lookup_zip_with_Some. exists o, n.
  by rewrite !lookup_take_lt.
Qed.

Lemma zip_take_partner_r (oldRest newRest : list ShadowNode) n :
  let b := diffBoundary oldRest newRest in
  n ∈ take b newRest ->
  exists o, (o, n) ∈ zip (take b oldRest) (take b newRest)
            /\ samePointer o n || sameFamily o n = true.
Proof.
  intros b Hn. apply elem_of_take in Hn as (i & Hn & Hi).
  destruct (diffBoundary_lookup _ _ _ Hi) as (o & n' & Ho & Hn' & Hpass).
  assert (n' = n) as -> by congruence.
  exists o. split; [|done].
  eapply list_elem_of_lookup_2. by apply zip_take_lookup.
Qed.

Lemma zip_take_partner_l (oldRest newRest : list ShadowNode) o :
  let b := diffBoundary oldRest newRest in
  o ∈ take b oldRest ->
  exists n, (o, n) ∈ zip (take b oldRest) (take b newRest)
            /\ samePointer o n || sameFamily o n = true.
Proof.
  intros b Ho. apply elem_of_take in Ho as (i & Ho & Hi).
  destruct (diffBoundary_lookup _ _ _ Hi) as (o' & n & Ho' & Hn & Hpass).
  assert (o' = o) as -> by congruence.
  exists n. split; [|done].
  eapply list_elem_of_lookup_2. by apply zip_take_lookup.
Qed.

Lemma stagesCalls_eq oldChildren newChildren :
  sameListObject oldChildren newChildren = false ->
  updateMountedFlag oldChildren newChildren
  = stagesCalls (items oldChildren) (items newChildren).
Proof. apply updateMountedFlag_stages. Qed.

Lemma stagesCalls_cons o oldRest n newRest :
  samePointer o n || sameFamily o n = true ->
  stagesCalls (o :: oldRest) (n :: newRest)
  = updatedPairCalls (o, n) ++ stagesCalls oldRest newRest.
Proof.
  intros Hpass. unfold stagesCalls. simpl. rewrite Hpass. simpl.
  by rewrite <- app_assoc.
Qed.

(** An entry that stage 1 skips as the same object in both lists could as
    well be absent. *)
Lemma stagesCalls_skip i : forall oldRest newRest o n,
  (i < diffBoundary oldRest newRest)%nat ->
  oldRest !! i = Some o -> newRest !! i = Some n ->
  samePointer o n = true ->
  stagesCalls (delete i oldRest) (delete i newRest)
  = stagesCalls oldRest newRest.
Proof.
  induction i as [|i IH]; intros [|o' oldRest] [|n' newRest] o n Hi Ho Hn Hp;
    simpl in *; try lia.
  - injection Ho as ->. injection Hn as ->.
    rewrite stagesCalls_cons by (by rewrite Hp).
    unfold updatedPairCalls. simpl. by rewrite Hp.
  - destruct (samePointer o' n' || sameFamily o' n') eqn:Hpass; [|lia].
    rewrite !stagesCalls_cons by done.
    f_equal. eapply IH; [|done..]. lia.
Qed.

Lemma stagesCalls_same l : stagesCalls l l = [].
Proof.
  induction l as [|x l IH]; [reflexivity|].
  assert (samePointer x x = true) as Hp by by apply bool_decide_eq_true.
  rewrite stagesCalls_cons by by rewrite Hp.
  unfold updatedPairCalls. simpl. by rewrite Hp.
Qed.

Lemma familyBoundary_same l : familyBoundary l l = length l.
Proof.
  induction l as [|x l IH]; [reflexivity|]. simpl.
  unfold sameFamily. rewrite bool_decide_eq_true_2 by done. by rewrite IH.
Qed.

Lemma diffBoundary_same l : diffBoundary l l = length l.
Proof.
  induction l as [|x l IH]; [reflexivity|]. simpl.
  unfold samePointer. rewrite bool_decide_eq_true_2 by done. simpl.
  by rewrite IH.
Qed.

(** ** The flags after a sequence of calls *)

Lemma elem_of_flat_map {A B} (f : A -> list B) (l : list A) (y : B) :
  y ∈ flat_map f l <-> exists x, x ∈ l /\ y ∈ f x.
Proof.
  rewrite list_elem_of_In, in_flat_map. split.
  - intros (x & Hx & Hy). exists x. by rewrite !list_elem_of_In.
  - intros (x & Hx & Hy). exists x. by rewrite <- !list_elem_of_In.
Qed.

Lemma applyEvents_app flags evs1 evs2 :
  applyEvents flags (evs1 ++ evs2)
  = applyEvents (applyEvents flags evs1) evs2.
Proof. apply foldl_app. Qed.

(** The flag of an address is the one last written: when the calls set it to
    [b] and never to the opposite, it ends as [b]. *)
Lemma applyEvents_lookup evs : forall flags a b,
  (exists x, SetMounted x b ∈ evs /\ addr x = a) ->
  (forall y, SetMounted y (negb b) ∈ evs -> addr y <> a) ->
  applyEvents flags evs !! a = Some b.
Proof.
  induction evs as [|e evs IH] using rev_ind; intros flags a b (x & Hx & Ha) Hno.
  - by apply elem_of_nil in Hx.
  - rewrite applyEvents_app. simpl.
    apply elem_of_app in Hx as [Hx|Hx].
    + assert (applyEvents flags evs !! a = Some b) as Hrec.
      { apply IH; [by exists x|]. intros y Hy. apply Hno, elem_of_app. by left. }
      destruct e as [y c|h y]; simpl; [|done].
      destruct (decide (addr y = a)) as [Hy|Hy].
      * destruct (decide (c = b)) as [->|Hc].
        -- rewrite Hy. apply lookup_insert_eq.
        -- exfalso. apply (Hno y); [|done].
           apply elem_of_app. right. apply list_elem_of_singleton.
           by destruct c, b.
      * by rewrite lookup_insert_ne.
    + apply list_elem_of_singleton in Hx as <-. simpl.
      rewrite Ha. apply lookup_insert_eq.
Qed.

Lemma setMounted_in_transitions ts x b :
  SetMounted x b ∈ flat_map transitionCalls ts -> (x, b) ∈ ts.
Proof.
  intros Hin. apply elem_of_flat_map in Hin as ([y c] & Ht & Hin).
  unfold transitionCalls, CommitState in Hin. simpl in Hin.
  destruct c.
  - apply elem_of_cons in Hin as [Heq|Hin]; [by injection Heq as -> ->|].
    destruct (state y); [|by apply elem_of_nil in Hin].
    by apply list_elem_of_singleton in Hin.
  - apply list_elem_of_singleton in Hin. by injection Hin as -> ->.
Qed.

(** The pass mounts nodes of the new forest and unmounts nodes of the old
    one, no others. *)
Lemma updateMountedFlag_setMounted_within oldChildren newChildren x b :
  SetMounted x b ∈ updateMountedFlag oldChildren newChildren ->
  transitionWithin (items oldChildren) (items newChildren) (x, b).
Proof.
  destruct (updateMountedFlag_transitions oldChildren newChildren)
    as (ts & -> & Hts).
  intros Hin. apply setMounted_in_transitions in Hin.
  by eapply Forall_forall in Hts.
Qed.

(** ** Two snapshots of one heap *)

Lemma sameHeap_pair oldChildren newChildren o n :
  sameHeap oldChildren newChildren ->
  o ∈ items oldChildren -> n ∈ items newChildren ->
  sameHeap (getChildren o) (getChildren n).
Proof.
  intros [Hl Hn Hc] Ho Hnn. split; simpl.
  - unfold sameListObject. simpl. intros Heq%bool_decide_eq_true.
    apply Hc; [by apply forestNodes_root..|done].
  - intros o' n' Ho' Hn'. apply Hn; by eapply forestNodes_child.
  - intros o' n' Ho' Hn'. apply Hc; by eapply forestNodes_child.
Qed.

Lemma sameHeap_temporary_l l : sameHeap temporaryEmptyList l.
Proof.
  split; simpl; [done|..]; intros o n Ho; by apply elem_of_nil in Ho.
Qed.

Lemma sameHeap_temporary_r l : sameHeap l temporaryEmptyList.
Proof.
  split; simpl.
  - by rewrite sameListObject_temporary_r.
  - intros o n _ Hn; by apply elem_of_nil in Hn.
  - intros o n _ Hn; by apply elem_of_nil in Hn.
Qed.

Lemma sameHeap_family oldChildren newChildren :
  sameHeap oldChildren newChildren ->
  forall i o n,
    items oldChildren !! i = Some o -> items newChildren !! i = Some n ->
    addr o = addr n -> family o = family n.
Proof.
  intros [_ Hn _] i o n Ho Hnn Ha.
  apply list_elem_of_lookup_2, forestNodes_root in Ho, Hnn.
  by rewrite (Hn o n Ho Hnn Ha).
Qed.

(** A node of the new forest whose family the old forest does not have is
    mounted by the pass. *)
Lemma updateMountedFlag_mounts_unmatched oldChildren newChildren :
  sameHeap oldChildren newChildren ->
  forall x,
    x ∈ forestNodes (items newChildren) ->
    (forall o, o ∈ forestNodes (items oldChildren) -> family o <> family x) ->
    SetMounted x true ∈ updateMountedFlag oldChildren newChildren.
Proof.
  apply (updateMountedFlag_ind
           (fun old new calls =>
              sameHeap old new ->
              forall x,
                x ∈ forestNodes (items new) ->
                (forall o, o ∈ forestNodes (items old) -> family o <> family x) ->
                SetMounted x true ∈ calls)).
  - intros old new Hobj Hheap x Hx Hno. exfalso.
    rewrite <- (sameHeap_list _ _ Hheap Hobj) in Hx. by apply (Hno x).
  - intros old new _ b IHpair IHins _ Hheap x Hx Hno.
    apply elem_of_forestNodes in Hx as (c & Hc & Hx).
    rewrite <- (take_drop b (items new)) in Hc.
    apply elem_of_app in Hc as [Hc|Hc].
    + destruct (zip_take_partner_r _ _ _ Hc) as (o & Hin & Hpass).
      pose proof Hin as Ho. apply elem_of_zip_l, subseteq_take in Ho.
      apply subseteq_take in Hc.
      destruct (samePointer o c) eqn:Hp.
      * exfalso. apply bool_decide_eq_true in Hp.
        assert (o = c) as ->.
        { apply (sameHeap_node _ _ Hheap); [by apply forestNodes_root..|done]. }
        apply (Hno x); [|done]. apply elem_of_forestNodes. eauto.
      * simpl in Hpass. apply elem_of_app. left.
        apply elem_of_flat_map. exists (o, c). split; [done|].
        unfold updatedPairCalls. simpl. rewrite Hp.
        destruct Hx as [->|Hx].
        -- exfalso. apply bool_decide_eq_true in Hpass.
           by apply (Hno o); [apply forestNodes_root|].
        -- right. apply elem_of_app. right. right.
           apply IHpair; [done|by eapply sameHeap_pair|done|].
           intros o' Ho'. apply Hno. by eapply forestNodes_child.
    + apply elem_of_app. right. apply elem_of_app. left.
      apply elem_of_flat_map. exists c. split; [done|].
      unfold insertedCalls. destruct Hx as [->|Hx]; [left|].
      right. apply elem_of_app. right.
      apply IHins; [done|apply sameHeap_temporary_l|done|].
      intros o' Ho'. by apply elem_of_nil in Ho'.
Qed.

(** A node of the old forest whose family the new forest does not have is
    unmounted by the pass. *)
Lemma updateMountedFlag_unmounts_unmatched oldChildren newChildren :
  sameHeap oldChildren newChildren ->
  forall x,
    x ∈ forestNodes (items oldChildren) ->
    (forall n, n ∈ forestNodes (items newChildren) -> family n <> family x) ->
    SetMounted x false ∈ updateMountedFlag oldChildren newChildren.
Proof.
  apply (updateMountedFlag_ind
           (fun old new calls =>
              sameHeap old new ->
              forall x,
                x ∈ forestNodes (items old) ->
                (forall n, n ∈ forestNodes (items new) -> family n <> family x) ->
                SetMounted x false ∈ calls)).
  - intros old new Hobj Hheap x Hx Hno. exfalso.
    rewrite (sameHeap_list _ _ Hheap Hobj) in Hx. by apply (Hno x).
  - intros old new _ b IHpair _ IHrem Hheap x Hx Hno.
    apply elem_of_forestNodes in Hx as (c & Hc & Hx).
    rewrite <- (take_drop b (items old)) in Hc.
    apply elem_of_app in Hc as [Hc|Hc].
    + destruct (zip_take_partner_l _ _ _ Hc) as (n & Hin & Hpass).
      pose proof Hin as Hn. apply elem_of_zip_r, subseteq_take in Hn.
      apply subseteq_take in Hc.
      destruct (samePointer c n) eqn:Hp.
      * exfalso. apply bool_decide_eq_true in Hp.
        assert (c = n) as ->.
        { apply (sameHeap_node _ _ Hheap); [by apply forestNodes_root..|done]. }
        apply (Hno x); [|done]. apply elem_of_forestNodes. eauto.
      * simpl in Hpass. apply elem_of_app. left.
        apply elem_of_flat_map. exists (c, n). split; [done|].
        unfold updatedPairCalls. simpl. rewrite Hp.
        destruct Hx as [->|Hx].
        -- exfalso. apply bool_decide_eq_true in Hpass.
           by apply (Hno n); [apply forestNodes_root|].
        -- right. apply elem_of_app. right. right.
           apply IHpair; [done|by eapply sameHeap_pair|done|].
           intros n' Hn'. apply Hno. by eapply forestNodes_child.
    + apply elem_of_app. right. apply elem_of_app. right.
      apply elem_of_flat_map. exists c. split; [done|].
      unfold removedCalls. destruct Hx as [->|Hx]; [left|].
      right.
      apply IHrem; [done|apply sameHeap_temporary_r|done|].
      intros n' Hn'. by apply elem_of_nil in Hn'.
Qed.

(** The calls of stage 1 for the pair at an index it reaches. *)
Lemma updatedPairCalls_segment oldChildren newChildren i o n :
  sameListObject oldChildren newChildren = false ->
  (i < diffBoundary (items oldChildren) (items newChildren))%nat ->
  items oldChildren !! i = Some o -> items newChildren !! i = Some n ->
  exists before after,
    updateMountedFlag oldChildren newChildren
    = before ++ updatedPairCalls (o, n) ++ after.
Proof.
  intros Hobj Hi Ho Hn. rewrite updateMountedFlag_stages by done.
  pose proof (zip_take_lookup _ _ _ _ _ _ Hi Ho Hn) as Hz.
  apply take_drop_middle in Hz. rewrite <- Hz.
  rewrite flat_map_app. simpl. rewrite <- !app_assoc.
  eexists _, _. reflexivity.
Qed.

(** ** One attempt *)

Section Attempts.

Variable layout : ShadowNode -> list LayoutableShadowNode.
Variable transaction : ShadowTreeCommitTransaction.

Lemma tryCommit_abort others tree :
  transaction (rootShadowNode_ tree) = None ->
  tryCommit layout transaction others tree = (false, others tree).
Proof. intros Hnull. unfold tryCommit. by rewrite Hnull. Qed.

Lemma tryCommit_conflict others tree candidate :
  transaction (rootShadowNode_ tree) = Some candidate ->
  addr (rootShadowNode_ (others tree)) <> addr (rootShadowNode_ tree) ->
  tryCommit layout transaction others tree = (false, others tree).
Proof.
  intros Hnew Hchanged. unfold tryCommit. rewrite Hnew.
  unfold samePointer. by rewrite bool_decide_eq_false_2.
Qed.

Lemma tryCommit_failed others tree tree' :
  tryCommit layout transaction others tree = (false, tree') ->
  tree' = others tree.
Proof.
  unfold tryCommit. destruct (transaction _); [|congruence].
  destruct (negb _); congruence.
Qed.

Lemma tryCommit_committed others tree tree' :
  tryCommit layout transaction others tree = (true, tree') ->
  exists candidate,
    transaction (rootShadowNode_ tree) = Some candidate
    /\ addr (rootShadowNode_ (others tree)) = addr (rootShadowNode_ tree)
    /\ tree' =
        {| rootShadowNode_ := candidate;
           revisionNumber_ := revisionNumber_ (others tree) + 1;
           mountingCoordinator_ :=
             mountingCoordinator_ (others tree)
               ++ [ {| revisionRoot := candidate;
                       revisionNumber := revisionNumber_ (others tree) + 1 |} ];
           delegateNotifications := S (delegateNotifications (others tree));
           mounted :=
             applyEvents (mounted (others tree))
               (updateMountedFlag (getChildren (rootShadowNode_ tree))
                                  (getChildren candidate));
           flagEvents :=
             flagEvents (others tree)
               ++ updateMountedFlag (getChildren (rootShadowNode_ tree))
                                    (getChildren candidate);
           layoutEvents :=
             layoutEvents (others tree)
               ++ emitLayoutEvents (layout candidate) |}.
Proof.
  unfold tryCommit. destruct (transaction _) as [candidate|]; [|congruence].
  unfold samePointer.
  destruct (bool_decide_reflect
              (addr (rootShadowNode_ (others tree))
               = addr (rootShadowNode_ tree))) as [Heq|Hne]; simpl;
    [|congruence].
  intros [= <-]. by exists candidate.
Qed.

(** ** The retry loop *)

Lemma afterFailedAttempts_S others first k tree :
  afterFailedAttempts others first (S k) tree
  = afterFailedAttempts others (S first) k
      (others (Z.of_nat (S first)) tree).
Proof. reflexivity. Qed.

Lemma afterFailedAttempts_noInterference first k tree :
  afterFailedAttempts (fun _ => noInterference) first k tree = tree.
Proof.
  unfold afterFailedAttempts. generalize (S first).
  induction k as [|k IH]; intros n; [reflexivity|]. simpl. apply IH.
Qed.

(** The loop ends: after [k] failed attempts either one attempt commits and
    [commit] returns, or the attempt count is 1024 and the assertion
    fails. *)
Lemma commit_loop_spec others fuel : forall (a : nat) log tree,
  (a < 1024)%nat -> (1024 - a <= fuel)%nat ->
  exists outcome k tree',
    commit_loop layout fuel transaction others (Z.of_nat a) log tree
    = Some (outcome,
            log ++ replicate k false
                ++ match outcome with
                   | Returned => [true]
                   | AssertionFailed => []
                   end,
            tree')
    /\ (forall j, (j < k)%nat ->
          tryCommit layout transaction (others (Z.of_nat (S (a + j))))
            (afterFailedAttempts others a j tree)
          = (false, afterFailedAttempts others a (S j) tree))
    /\ match outcome with
       | Returned =>
           (a + k < 1024)%nat
           /\ tryCommit layout transaction
                (others (Z.of_nat (S (a + k))))
                (afterFailedAttempts others a k tree)
              = (true, tree')
       | AssertionFailed =>
           (a + k = 1024)%nat
           /\ tree' = afterFailedAttempts others a k tree
       end.
Proof.
  induction fuel as [|fuel IH]; intros a log tree Ha Hfuel; [lia|].
  simpl.
  replace (Z.of_nat a + 1) with (Z.of_nat (S a)) by lia.
  destruct (tryCommit layout transaction (others (Z.of_nat (S a))) tree)
    as [[] tree1] eqn:Htry.
  - exists Returned, 0%nat, tree1. simpl.
    rewrite Nat.add_0_r. split; [done|]. split; [lia|]. split; [lia|done].
  - pose proof (tryCommit_failed _ _ _ Htry) as ->.
    assert (forall j, (j < 1)%nat ->
              tryCommit layout transaction (others (Z.of_nat (S (a + j))))
                (afterFailedAttempts others a j tree)
              = (false, afterFailedAttempts others a (S j) tree)) as Hfirst.
    { intros j Hj. assert (j = 0%nat) as -> by lia.
      by rewrite Nat.add_0_r. }
    destruct (bool_decide_reflect (Z.of_nat (S a) < 1024)) as [Hlt|Hge].
    + destruct (IH (S a) (log ++ [false])
                  (others (Z.of_nat (S a)) tree))
        as (outcome & k & tree' & Heq & Hfailed & Hout); [lia|lia|].
      exists outcome, (S k), tree'. split; [|split].
      * rewrite Heq. simpl. by rewrite <- !app_assoc.
      * intros [|j] Hj; [apply Hfirst; lia|].
        rewrite !afterFailedAttempts_S.
        replace (a + S j)%nat with (S a + j)%nat by lia.
        apply Hfailed. lia.
      * rewrite afterFailedAttempts_S.
        destruct outcome;
          [replace (a + S k)%nat with (S a + k)%nat by lia; done|].
        destruct Hout as [Hk ->]. split; [lia|done].
    + exists AssertionFailed, 1%nat, (others (Z.of_nat (S a)) tree).
      split; [done|]. split; [exact Hfirst|]. split; [lia|done].
Qed.

Lemma commit_spec others tree :
  exists outcome k tree',
    commit layout transaction others tree
    = Some (outcome,
            replicate k false
              ++ match outcome with
                 | Returned => [true]
                 | AssertionFailed => []
                 end,
            tree')
    /\ (forall j, (j < k)%nat ->
          tryCommit layout transaction (others (Z.of_nat (S j)))
            (afterFailedAttempts others 0 j tree)
          = (false, afterFailedAttempts others 0 (S j) tree))
    /\ match outcome with
       | Returned =>
           (k < 1024)%nat
           /\ tryCommit layout transaction
                (others (Z.of_nat (S k)))
                (afterFailedAttempts others 0 k tree)
              = (true, tree')
       | AssertionFailed =>
           k = 1024%nat
           /\ tree' = afterFailedAttempts others 0 k tree
       end.
Proof.
  destruct (commit_loop_spec others 1024 0 [] tree)
    as (outcome & k & tree' & Heq & Hfailed & Hout); [lia|lia|].
  exists outcome, k, tree'. split; [exact Heq|]. split; [exact Hfailed|].
  destruct outcome; simpl in Hout; done.
Qed.

Lemma failedAttempts_replicate k :
  failedAttempts (replicate k false) = k.
Proof.
  unfold failedAttempts. induction k as [|k IH]; [reflexivity|].
  change (replicate (S k) false) with (false :: replicate k false).
  rewrite filter_cons_True by done. simpl. by rewrite IH.
Qed.

Lemma failedAttempts_app log1 log2 :
  failedAttempts (log1 ++ log2)
  = (failedAttempts log1 + failedAttempts log2)%nat.
Proof. unfold failedAttempts. by rewrite filter_app, length_app. Qed.

End Attempts.

(** * The claims *)

(** ** The diff pass *)

(** C4.  Over two sibling lists that are not one object the pass works by
    position, in three stages.  Stage 1 covers the indices below the first
    one at which the two entries are not of the same family (or a list
    ends), and leaves the loop there; from that index on every new entry is
    mounted, has its state committed and its children diffed against an empty
    old list, and every old entry is unmounted and its children diffed against
    an empty new list. *)
Theorem updateMountedFlag_three_stages oldChildren newChildren :
  (sameListObject oldChildren newChildren = true ->
   items oldChildren = items newChildren) ->
  (forall i o n,
     items oldChildren !! i = Some o -> items newChildren !! i = Some n ->
     addr o = addr n -> family o = family n) ->
  let b := familyBoundary (items oldChildren) (items newChildren) in
  (stage1 updateMountedFlag (items oldChildren) (items newChildren) 0%nat).1 = b
  /\ (forall i, (i < b)%nat ->
        exists o n, items oldChildren !! i = Some o
                    /\ items newChildren !! i = Some n
                    /\ family o = family n)
  /\ (forall o n,
        items oldChildren !! b = Some o -> items newChildren !! b = Some n ->
        family o <> family n)
  /\ updateMountedFlag oldChildren newChildren
     = flat_map updatedPairCalls
         (zip (take b (items oldChildren)) (take b (items newChildren)))
       ++ flat_map
            (fun newChild =>
               SetMounted newChild true
                 :: CommitState newChild
                 ++ updateMountedFlag temporaryEmptyList (getChildren newChild))
            (drop b (items newChildren))
       ++ flat_map
            (fun oldChild =>
               SetMounted oldChild false
                 :: updateMountedFlag (getChildren oldChild) temporaryEmptyList)
            (drop b (items oldChildren)).
Proof.
  intros Hlist Hheap b.
  assert (diffBoundary (items oldChildren) (items newChildren) = b) as Hb
    by by apply diffBoundary_family.
  repeat split.
  - rewrite stage1_eq. simpl. exact Hb.
  - apply familyBoundary_lookup.
  - apply familyBoundary_stop.
  - destruct (sameListObject oldChildren newChildren) eqn:Hobj.
    + rewrite updateMountedFlag_same_object by done.
      pose proof (stagesCalls_same (items newChildren)) as Hsame.
      unfold stagesCalls in Hsame. rewrite diffBoundary_same in Hsame.
      subst b. rewrite (Hlist eq_refl), familyBoundary_same.
      symmetry. exact Hsame.
    + rewrite updateMountedFlag_stages by done. by rewrite Hb.
Qed.

Lemma updateMountedFlag_three_stages_example :
  (stage1 updateMountedFlag (items exampleOld) (items exampleNew) 0%nat).1
  = 1%nat
  /\ updateMountedFlag exampleOld exampleNew
     = [ SetMounted newA true; StateCommit 7 newA; SetMounted oldA false;
         SetMounted newC true; StateCommit 8 newC;
         SetMounted oldB false; SetMounted oldB1 false ].
Proof.
  destruct (updateMountedFlag_three_stages exampleOld exampleNew)
    as (H1 & _ & _ & H4).
  - discriminate.
  - intros [|[|i]] o n; simpl; intros [= <-] [= <-]; done.
  - split; [exact H1|]. rewrite H4. reflexivity.
Defined.

(** C5.  When stage 1 reaches a pair of distinct nodes of the same family at
    one index, it calls [setMounted(true)] on the new node, then, when the
    new node has a state handle, [commit] on that handle with the new node,
    and only then [setMounted(false)] on the old node; the diff of their
    children follows.  Nothing comes between these calls. *)
Theorem remount_mounts_before_unmount oldChildren newChildren i o n :
  sameListObject oldChildren newChildren = false ->
  (forall j, (j < i)%nat ->
     exists o' n', items oldChildren !! j = Some o'
                   /\ items newChildren !! j = Some n'
                   /\ samePointer o' n' || sameFamily o' n' = true) ->
  items oldChildren !! i = Some o ->
  items newChildren !! i = Some n ->
  samePointer o n = false ->
  sameFamily o n = true ->
  exists before after,
    updateMountedFlag oldChildren newChildren
    = before
        ++ SetMounted n true
        :: match state n with
           | Some handle => [StateCommit handle n]
           | None => []
           end
        ++ SetMounted o false
        :: updateMountedFlag (getChildren o) (getChildren n)
        ++ after.
Proof.
  intros Hobj Hreach Ho Hn Hp Hf.
  assert (i < diffBoundary (items oldChildren) (items newChildren))%nat as Hi.
  { apply diffBoundary_reach. intros j Hj.
    destruct (decide (j = i)) as [->|Hne].
    - exists o, n. by rewrite Hf, orb_true_r.
    - apply Hreach. lia. }
  destruct (updatedPairCalls_segment _ _ _ _ _ Hobj Hi Ho Hn)
    as (before & after & Heq).
  exists before, after. rewrite Heq. unfold updatedPairCalls. simpl.
  rewrite Hp. simpl. by rewrite <- !app_assoc.
Qed.

Lemma remount_mounts_before_unmount_example :
  exists before after,
    updateMountedFlag exampleOld exampleNew
    = before
        ++ [ SetMounted newA true; StateCommit 7 newA; SetMounted oldA false ]
        ++ after.
Proof.
  destruct (remount_mounts_before_unmount exampleOld exampleNew 0%nat
              oldA newA) as (before & after & Heq).
  - reflexivity.
  - intros j Hj. lia.
  - reflexivity.
  - reflexivity.
  - reflexivity.
  - reflexivity.
  - exists before, after. exact Heq.
Defined.

(** C9.  In the calls of the pass, every [setMounted(true)] on a node with a
    state handle is followed at once by the commit of that handle with the
    node, and every state commit follows at once the [setMounted(true)] of
    its node: one commit for each transition to mounted, none for a node that
    is unmounted.  An entry that stage 1 skips as the same object in both
    lists produces no call at all: the calls are those of the pass on the
    lists without it. *)
Theorem state_committed_once_per_mount oldChildren newChildren :
  let calls := updateMountedFlag oldChildren newChildren in
  (forall k n h,
      calls !! k = Some (SetMounted n true) -> state n = Some h ->
      calls !! S k = Some (StateCommit h n))
  /\ (forall k h n,
        calls !! k = Some (StateCommit h n) ->
        exists k', k = S k'
                   /\ calls !! k' = Some (SetMounted n true)
                   /\ state n = Some h)
  /\ (forall i o n,
        sameListObject oldChildren newChildren = false ->
        (i < (stage1 updateMountedFlag
                (items oldChildren) (items newChildren) 0%nat).1)%nat ->
        items oldChildren !! i = Some o ->
        items newChildren !! i = Some n ->
        samePointer o n = true ->
        calls
        = updateMountedFlag
            (mkList (listRef oldChildren) (delete i (items oldChildren)))
            (mkList (listRef newChildren) (delete i (items newChildren)))).
Proof.
  intros calls. subst calls.
  destruct (updateMountedFlag_transitions oldChildren newChildren)
    as (ts & Heq & _).
  repeat split.
  - rewrite Heq. apply transitions_commit_follows.
  - rewrite Heq. apply transitions_commit_preceded.
  - intros i o n Hobj Hi Ho Hn Hp. rewrite stage1_eq in Hi. simpl in Hi.
    rewrite !stagesCalls_eq by done. simpl. symmetry.
    by eapply stagesCalls_skip.
Qed.

Lemma state_committed_once_per_mount_example :
  updateMountedFlag exampleOldKept exampleNewKept !! 1%nat
  = Some (StateCommit 7 newA)
  /\ (exists k',
        1%nat = S k'
        /\ updateMountedFlag exampleOldKept exampleNewKept !! k'
           = Some (SetMounted newA true)
        /\ state newA = Some 7%positive)
  /\ updateMountedFlag exampleOldKept exampleNewKept
     = updateMountedFlag (mkList (Some 10%positive) [oldA])
                         (mkList (Some 11%positive) [newA]).
Proof.
  destruct (state_committed_once_per_mount exampleOldKept exampleNewKept)
    as (H1 & H2 & H3).
  split; [|split].
  - apply (H1 0%nat newA 7%positive); reflexivity.
  - apply (H2 1%nat 7%positive newA). reflexivity.
  - apply (H3 0%nat kept kept); try reflexivity. vm_compute. lia.
Defined.

(** C6.  After the pass has run over the child lists of two snapshots of one
    heap, every node of the new forest whose family no node of the old forest
    has is mounted, every node of the old forest whose family no node of the
    new forest has is unmounted, and for every index of the common prefix at
    which the two entries are of one family the calls of the pass contain
    those of the pass on the children of the two entries. *)
Theorem mount_unmount_conservation oldChildren newChildren flags :
  sameHeap oldChildren newChildren ->
  let calls := updateMountedFlag oldChildren newChildren in
  let flags' := applyEvents flags calls in
  (forall n,
      n ∈ forestNodes (items newChildren) ->
      (forall o, o ∈ forestNodes (items oldChildren) -> family o <> family n) ->
      flags' !! addr n = Some true)
  /\ (forall o,
        o ∈ forestNodes (items oldChildren) ->
        (forall n, n ∈ forestNodes (items newChildren) -> family n <> family o) ->
        flags' !! addr o = Some false)
  /\ (forall i o n,
        (i < familyBoundary (items oldChildren) (items newChildren))%nat ->
        items oldChildren !! i = Some o ->
        items newChildren !! i = Some n ->
        exists before after,
          calls
          = before
              ++ updateMountedFlag (getChildren o) (getChildren n)
              ++ after).
Proof.
  intros Hheap calls flags'. subst flags' calls. repeat split.
  - intros n Hn Hno. apply applyEvents_lookup.
    + exists n. split; [|done]. by apply updateMountedFlag_mounts_unmatched.
    + intros y Hy Ha. simpl in Hy.
      apply updateMountedFlag_setMounted_within in Hy.
      unfold transitionWithin in Hy. simpl in Hy.
      apply (Hno y Hy). f_equal.
      by apply (sameHeap_node _ _ Hheap).
  - intros o Ho Hno. apply applyEvents_lookup.
    + exists o. split; [|done]. by apply updateMountedFlag_unmounts_unmatched.
    + intros y Hy Ha. simpl in Hy.
      apply updateMountedFlag_setMounted_within in Hy.
      unfold transitionWithin in Hy. simpl in Hy.
      apply (Hno y Hy). f_equal. symmetry.
      by apply (sameHeap_node _ _ Hheap).
  - intros i o n Hi Ho Hn.
    destruct (sameListObject oldChildren newChildren) eqn:Hobj.
    { exists [], []. rewrite updateMountedFlag_same_object by done.
      rewrite (sameHeap_list _ _ Hheap Hobj) in Ho.
      assert (o = n) as -> by congruence.
      rewrite updateMountedFlag_same_object; [done|].
      unfold sameListObject. simpl. by apply bool_decide_eq_true. }
    rewrite <- diffBoundary_family in Hi by by apply sameHeap_family.
    destruct (updatedPairCalls_segment _ _ _ _ _ Hobj Hi Ho Hn)
      as (before & after & Heq).
    rewrite Heq. unfold updatedPairCalls. simpl.
    destruct (samePointer o n) eqn:Hp.
    + exists before, after. simpl.
      rewrite updateMountedFlag_same_object; [done|].
      apply bool_decide_eq_true in Hp.
      apply list_elem_of_lookup_2, forestNodes_root in Ho, Hn.
      rewrite (sameHeap_node _ _ Hheap o n Ho Hn Hp).
      unfold sameListObject. simpl. by apply bool_decide_eq_true.
    + exists (before ++ SetMounted n true
                :: CommitState n ++ [SetMounted o false]), after.
      rewrite <- !app_assoc. simpl. by rewrite <- !app_assoc.
Qed.

Lemma mount_unmount_conservation_example :
  let flags' :=
    applyEvents {[ 3%positive := true ]}
      (updateMountedFlag exampleOld exampleNew) in
  flags' !! addr newC = Some true
  /\ flags' !! addr oldB1 = Some false
  /\ exists before after,
       updateMountedFlag exampleOld exampleNew
       = before
           ++ updateMountedFlag (getChildren oldA) (getChildren newA)
           ++ after.
Proof.
  assert (sameHeap exampleOld exampleNew) as Hheap.
  { split; simpl.
    - discriminate.
    - intros o n Ho Hn; enumerate_nodes Ho; enumerate_nodes Hn; discriminate.
    - intros o n Ho Hn; enumerate_nodes Ho; enumerate_nodes Hn; discriminate. }
  destruct (mount_unmount_conservation exampleOld exampleNew
              {[ 3%positive := true ]} Hheap) as (H1 & H2 & H3).
  split; [|split].
  - apply (H1 newC).
    + simpl. set_solver.
    + simpl. intros o Ho. enumerate_nodes Ho; discriminate.
  - apply (H2 oldB1).
    + simpl. set_solver.
    + simpl. intros n Hn. enumerate_nodes Hn; discriminate.
  - apply (H3 0%nat oldA newA); try reflexivity. vm_compute. lia.
Defined.

(** ** The commit engine *)

(** C7.  When the root has changed between the snapshot and the swap, the
    attempt returns [false] and the tree is exactly what the other threads
    left: this attempt moved neither the root nor the revision number, wrote
    no mounted flag, pushed no revision and did not notify the delegate. *)
Theorem conflict_changes_nothing layout transaction others tree candidate :
  transaction (rootShadowNode_ tree) = Some candidate ->
  addr (rootShadowNode_ (others tree)) <> addr (rootShadowNode_ tree) ->
  tryCommit layout transaction others tree = (false, others tree).
Proof. apply tryCommit_conflict. Qed.

Lemma conflict_changes_nothing_example :
  tryCommit exampleLayout replaceTransaction
    (otherThreads exampleLayout [exampleEmptyTransaction]) exampleTree
  = (false, otherThreads exampleLayout [exampleEmptyTransaction] exampleTree).
Proof.
  eapply (conflict_changes_nothing exampleLayout replaceTransaction).
  - reflexivity.
  - vm_compute. discriminate.
Defined.



(** C1, as the code has it.  A transaction that always returns the null
    root makes every attempt return [false] with the tree left as the other
    threads made it: the attempt itself moves neither the root nor the
    revision number, pushes nothing and notifies nobody.  [commit] does not
    tell the abort from a conflict: it tries again, and after the 1024th
    failed attempt the assertion fails; [commit] does not return. *)
Theorem abort_changes_nothing_and_is_retried layout transaction others tree :
  (forall root, transaction root = None) ->
  (forall interference tree1,
      tryCommit layout transaction interference tree1
      = (false, interference tree1))
  /\ commit layout transaction others tree
     = Some (AssertionFailed, replicate 1024 false,
             afterFailedAttempts others 0 1024 tree)
  /\ commit layout transaction (fun _ => noInterference) tree
     = Some (AssertionFailed, replicate 1024 false, tree).
Proof.
  intros Habort.
  assert (forall interference tree1,
             tryCommit layout transaction interference tree1
             = (false, interference tree1)) as Htry.
  { intros interference tree1. by apply tryCommit_abort. }
  assert (forall others1,
             commit layout transaction others1 tree
             = Some (AssertionFailed, replicate 1024 false,
                     afterFailedAttempts others1 0 1024 tree)) as Hcommit.
  { intros others1.
    destruct (commit_spec layout transaction others1 tree)
      as (outcome & k & tree' & Heq & _ & Hout).
    destruct outcome.
    - destruct Hout as [_ Hlast]. rewrite Htry in Hlast. discriminate.
    - destruct Hout as [-> ->]. by rewrite app_nil_r in Heq. }
  split; [exact Htry|]. split; [apply Hcommit|].
  rewrite Hcommit. by rewrite afterFailedAttempts_noInterference.
Qed.

Lemma abort_changes_nothing_and_is_retried_example :
  tryCommit exampleLayout abortTransaction (exampleOthers 1) exampleTree
  = (false, exampleOthers 1 exampleTree)
  /\ commit exampleLayout abortTransaction (fun _ => noInterference)
       exampleTree
     = Some (AssertionFailed, replicate 1024 false, exampleTree).
Proof.
  destruct (abort_changes_nothing_and_is_retried exampleLayout
              abortTransaction exampleOthers exampleTree)
    as (H1 & _ & H3).
  - reflexivity.
  - split; [apply H1|exact H3].
Defined.

(** The claim C1 as the specification states it fails: with a transaction
    that always aborts, [commit] does not return, the assertion fails. *)
Lemma abort_sentinel_commit_does_not_return :
  (forall root, abortTransaction root = None)
  /\ commit exampleLayout abortTransaction (fun _ => noInterference)
       exampleTree
     = Some (AssertionFailed, replicate 1024 false, exampleTree)
  /\ ~ (exists log tree',
          commit exampleLayout abortTransaction (fun _ => noInterference)
            exampleTree
          = Some (Returned, log, tree')).
Proof.
  assert (commit exampleLayout abortTransaction (fun _ => noInterference)
            exampleTree
          = Some (AssertionFailed, replicate 1024 false, exampleTree)) as Heq
    by (vm_compute; reflexivity).
  split; [reflexivity|]. split; [exact Heq|].
  intros (log & tree' & Hret). rewrite Heq in Hret. discriminate.
Qed.

(** C8, as the code has it.  [commit] always ends, and never makes more than
    1024 failed attempts: it returns right after the first attempt that
    commits, which is its last one and follows fewer than 1024 failed ones;
    when the 1024th attempt fails too the assertion fails, and [commit] does
    not return. *)
Theorem commit_retry_cap layout transaction others tree :
  exists outcome log tree',
    commit layout transaction others tree = Some (outcome, log, tree')
    /\ (failedAttempts log <= 1024)%nat
    /\ match outcome with
       | Returned =>
           log = replicate (failedAttempts log) false ++ [true]
           /\ (failedAttempts log < 1024)%nat
           /\ last log = Some true
       | AssertionFailed =>
           log = replicate 1024 false /\ failedAttempts log = 1024%nat
       end.
Proof.
  destruct (commit_spec layout transaction others tree)
    as (outcome & k & tree' & Heq & _ & Hout).
  eexists outcome, _, tree'. split; [exact Heq|].
  rewrite failedAttempts_app, failedAttempts_replicate.
  destruct outcome.
  - destruct Hout as [Hk _].
    change (failedAttempts [true]) with 0%nat. rewrite Nat.add_0_r.
    split; [lia|]. split; [done|]. split; [done|]. apply last_snoc.
  - destruct Hout as [-> _].
    change (failedAttempts []) with 0%nat. rewrite Nat.add_0_r, app_nil_r.
    split; [lia|]. split; done.
Qed.

(** The claim C8 as the specification states it fails: [commit] can make
    1024 failed attempts, the assertion fails after the 1024th. *)
Lemma commit_makes_1024_failed_attempts :
  exists outcome log tree',
    commit exampleLayout abortTransaction (fun _ => noInterference)
      exampleTree
    = Some (outcome, log, tree')
    /\ (1024 <= failedAttempts log)%nat.
Proof.
  exists AssertionFailed, (replicate 1024 false), exampleTree.
  split; [vm_compute; reflexivity|].
  rewrite failedAttempts_replicate. lia.
Qed.

(** ** Revision numbers *)

Section RevisionNumbers.

Variable layout : ShadowNode -> list LayoutableShadowNode.

Lemma consecutiveFromZero_new root : consecutiveFromZero (ShadowTree_new root).
Proof. repeat split. simpl. lia. Qed.

Lemma tryCommit_consecutive transaction (others : Interference) tree :
  (forall t, consecutiveFromZero t -> consecutiveFromZero (others t)) ->
  consecutiveFromZero tree ->
  consecutiveFromZero (tryCommit layout transaction others tree).2.
Proof.
  intros Hothers Htree.
  destruct (tryCommit layout transaction others tree) as [[] tree'] eqn:Htry.
  - apply tryCommit_committed in Htry as (candidate & _ & _ & ->).
    destruct (Hothers tree Htree) as (Hnumbers & Hcount & Hpos).
    unfold consecutiveFromZero, observedNumbers in *. simpl.
    rewrite length_app, fmap_app, Hnumbers. simpl.
    rewrite Nat.add_1_r, seq_S, fmap_app. simpl.
    split; [|lia]. do 2 f_equal. lia.
  - apply tryCommit_failed in Htry as ->. by apply Hothers.
Qed.

Lemma otherThreads_consecutive transactions : forall tree,
  consecutiveFromZero tree ->
  consecutiveFromZero (otherThreads layout transactions tree).
Proof.
  induction transactions as [|t transactions IH]; intros tree Htree;
    [done|].
  simpl. apply IH. by apply tryCommit_consecutive.
Qed.

(** ** Calls that overlap *)

Lemma attemptStep_in_turn transaction (others : Interference) tree :
  Nat.iter 4 (fun st => attemptStep layout transaction st.1 st.2)
    ((attemptStep layout transaction NotStarted tree).1,
     others (attemptStep layout transaction NotStarted tree).2)
  = (Finished (tryCommit layout transaction others tree).1,
     (tryCommit layout transaction others tree).2).
Proof.
  unfold tryCommit. simpl.
  destruct (transaction (rootShadowNode_ tree)) as [candidate|];
    [|reflexivity].
  simpl.
  destruct (negb (samePointer (rootShadowNode_ (others tree))
                              (rootShadowNode_ tree))); reflexivity.
Qed.

Lemma attempt_in_turn transaction tree :
  Nat.iter 5 (fun st => attemptStep layout transaction st.1 st.2)
    (NotStarted, tree)
  = (Finished (tryCommit layout transaction noInterference tree).1,
     (tryCommit layout transaction noInterference tree).2).
Proof.
  unfold tryCommit, noInterference. simpl.
  destruct (transaction (rootShadowNode_ tree)) as [candidate|];
    [|reflexivity].
  simpl.
  destruct (negb (samePointer (rootShadowNode_ tree) (rootShadowNode_ tree)));
    reflexivity.
Qed.

Lemma schedulerStep_at pool i transaction stage tree :
  pool !! i = Some (transaction, stage) ->
  schedulerStep layout (pool, tree) i
  = (<[i := (transaction, (attemptStep layout transaction stage tree).1)]> pool,
     (attemptStep layout transaction stage tree).2).
Proof.
  intros Hi. unfold schedulerStep. simpl. rewrite Hi.
  by destruct (attemptStep layout transaction stage tree).
Qed.

Lemma schedulerStep_repeat n : forall pool i transaction stage tree,
  pool !! i = Some (transaction, stage) ->
  runSchedule layout (replicate n i) (pool, tree)
  = (<[i := (transaction,
             (Nat.iter n (fun st => attemptStep layout transaction st.1 st.2)
                (stage, tree)).1)]> pool,
     (Nat.iter n (fun st => attemptStep layout transaction st.1 st.2)
        (stage, tree)).2).
Proof.
  induction n as [|n IH]; intros pool i transaction stage tree Hi.
  - simpl. by rewrite list_insert_id.
  - rewrite Nat.iter_succ_r.
    change (runSchedule layout (replicate (S n) i) (pool, tree))
      with (runSchedule layout (replicate n i)
              (schedulerStep layout (pool, tree) i)).
    rewrite (schedulerStep_at _ _ _ _ _ Hi).
    rewrite (IH _ i transaction
               (attemptStep layout transaction stage tree).1).
    + rewrite list_insert_insert_eq. simpl.
      by destruct (attemptStep layout transaction stage tree).
    + apply list_lookup_insert_eq. by eapply lookup_lt_Some.
Qed.

Lemma attemptStep_finished transaction committed tree n :
  Nat.iter n (fun st => attemptStep layout transaction st.1 st.2)
    (Finished committed, tree)
  = (Finished committed, tree).
Proof. induction n as [|n IH]; [reflexivity|]. simpl. by rewrite IH. Qed.

(** A call that runs its five stages with no other call in between is one
    call of [tryCommit] without interference. *)
Lemma schedulerStep_in_turn pool i tree :
  noneInProgress pool ->
  exists pool' tree',
    runSchedule layout (replicate 5 i) (pool, tree) = (pool', tree')
    /\ noneInProgress pool'
    /\ (tree' = tree
        \/ exists transaction,
             tree' = (tryCommit layout transaction noInterference tree).2).
Proof.
  intros Hnone.
  destruct (pool !! i) as [[transaction stage]|] eqn:Hi.
  - rewrite (schedulerStep_repeat 5 _ _ _ _ _ Hi).
    eapply Forall_lookup_1 in Hnone as Hstage; [|exact Hi].
    simpl in Hstage. destruct Hstage as [->|[committed ->]].
    + rewrite attempt_in_turn. simpl.
      eexists _, _. split; [reflexivity|]. split.
      * apply Forall_insert; [done|]. right. by eexists.
      * right. by exists transaction.
    + rewrite attemptStep_finished. simpl.
      eexists _, _. split; [reflexivity|]. split; [|by left].
      apply Forall_insert; [done|]. right. by eexists.
  - exists pool, tree. split; [|split; [done|by left]].
    assert (schedulerStep layout (pool, tree) i = (pool, tree)) as Hskip
      by (unfold schedulerStep; simpl; by rewrite Hi).
    unfold runSchedule. simpl. by rewrite !Hskip.
Qed.

Lemma runSchedule_in_turn order : forall pool tree,
  noneInProgress pool ->
  consecutiveFromZero tree ->
  consecutiveFromZero
    (runSchedule layout (order ≫= replicate 5) (pool, tree)).2.
Proof.
  induction order as [|i order IH]; intros pool tree Hnone Htree; [done|].
  rewrite bind_cons. unfold runSchedule. rewrite foldl_app.
  destruct (schedulerStep_in_turn pool i tree Hnone)
    as (pool' & tree' & Hrun & Hnone' & Htree').
  unfold runSchedule in Hrun. rewrite Hrun. apply IH; [done|].
  destruct Htree' as [->|[transaction ->]]; [done|].
  by apply tryCommit_consecutive.
Qed.

Lemma pendingRevisions_notStarted transactions :
  pendingRevisions (notStarted transactions) = [].
Proof. induction transactions as [|t ts IH]; [reflexivity|]. exact IH. Qed.

Lemma awaitsNotification_notStarted transactions :
  filter (fun a => awaitsNotification a = true) (notStarted transactions) = [].
Proof.
  induction transactions as [|t ts IH]; [reflexivity|].
  unfold notStarted. rewrite fmap_cons, filter_cons_False by done. exact IH.
Qed.

Lemma noneInProgress_notStarted transactions :
  noneInProgress (notStarted transactions).
Proof.
  apply Forall_forall. intros a Ha.
  apply list_elem_of_fmap in Ha as (t & -> & _). by left.
Qed.

Lemma noneInProgress_pending pool :
  noneInProgress pool ->
  pendingRevisions pool = []
  /\ filter (fun a => awaitsNotification a = true) pool = [].
Proof.
  induction 1 as [|[t stage] pool Hstage _ [IH1 IH2]]; [done|].
  simpl in Hstage.
  destruct Hstage as [->|[committed ->]];
    (split; [exact IH1|by rewrite filter_cons_False, IH2]).
Qed.

Lemma inStep_new transactions root :
  inStep (notStarted transactions) (ShadowTree_new root).
Proof.
  unfold inStep.
  rewrite pendingRevisions_notStarted, awaitsNotification_notStarted. simpl.
  split; [lia|]. split; [done|]. split; [by left|done].
Qed.

Lemma inStep_Permutation pool pool' tree :
  pool ≡ₚ pool' -> inStep pool tree -> inStep pool' tree.
Proof.
  intros Hperm (Hpos & Hnumbers & Hcurrent & Hcount).
  assert (pendingRevisions pool ≡ₚ pendingRevisions pool') as Hpending
    by (unfold pendingRevisions; by rewrite Hperm).
  split; [done|]. split; [by rewrite <- Hpending|].
  split; [by rewrite <- Hpending|]. by rewrite <- Hperm.
Qed.

(** One stage of one call keeps the invariant. *)
Lemma attemptStep_inStep transaction stage rest tree :
  inStep ((transaction, stage) :: rest) tree ->
  inStep ((transaction, (attemptStep layout transaction stage tree).1) :: rest)
         (attemptStep layout transaction stage tree).2.
Proof.
  intros (Hpos & Hnumbers & Hcurrent & Hcount).
  unfold inStep, pendingRevisions in *.
  destruct stage as [|old new|new n|new n|new n|committed]; simpl in *.
  - destruct (transaction (rootShadowNode_ tree)); simpl;
      rewrite filter_cons_False in Hcount |- * by done; done.
  - destruct (negb (samePointer (rootShadowNode_ tree) old)); simpl.
    + rewrite filter_cons_False in Hcount |- * by done. done.
    + rewrite filter_cons_False in Hcount |- * by done.
      split; [lia|]. split; [|split; [|done]].
      * rewrite <- Permutation_middle. rewrite fmap_cons. simpl.
        rewrite Hnumbers.
        replace (Z.to_nat (revisionNumber_ tree + 1))
          with (S (Z.to_nat (revisionNumber_ tree))) by lia.
        rewrite (seq_S _ (S _)), fmap_app. simpl.
        rewrite <- Permutation_cons_append.
        replace (Z.of_nat (S (Z.to_nat (revisionNumber_ tree))))
          with (revisionNumber_ tree + 1) by lia.
        apply Permutation_swap.
      * apply elem_of_app. right. by left.
  - rewrite filter_cons_False in Hcount |- * by done. done.
  - try rewrite filter_cons_False in Hcount by done.
    try rewrite filter_cons_True by done.
    rewrite <- app_assoc. simpl.
    split; [done|]. split; [done|]. split; [done|].
    rewrite length_app. simpl in *. lia.
  - try rewrite filter_cons_True in Hcount by done.
    try rewrite filter_cons_False by done. simpl in *.
    split; [done|]. split; [done|]. split; [done|]. lia.
  - done.
Qed.

Lemma schedulerStep_inStep pool tree i :
  inStep pool tree ->
  inStep (schedulerStep layout (pool, tree) i).1
         (schedulerStep layout (pool, tree) i).2.
Proof.
  intros Hin.
  destruct (pool !! i) as [[transaction stage]|] eqn:Hi.
  - rewrite (schedulerStep_at _ _ _ _ _ Hi). simpl.
    apply (inStep_Permutation
             ((transaction, (attemptStep layout transaction stage tree).1)
                :: delete i pool)).
    + rewrite insert_take_drop by by eapply lookup_lt_Some.
      rewrite delete_take_drop. by rewrite <- Permutation_middle.
    + apply attemptStep_inStep.
      eapply inStep_Permutation; [|exact Hin]. by apply delete_Permutation.
  - unfold schedulerStep. simpl. by rewrite Hi.
Qed.

Lemma runSchedule_inStep schedule : forall pool tree,
  inStep pool tree ->
  inStep (runSchedule layout schedule (pool, tree)).1
         (runSchedule layout schedule (pool, tree)).2.
Proof.
  induction schedule as [|i schedule IH]; intros pool tree Hin; [done|].
  unfold runSchedule. simpl.
  pose proof (schedulerStep_inStep pool tree i Hin) as Hstep.
  destruct (schedulerStep layout (pool, tree) i) as [pool1 tree1].
  by apply IH.
Qed.

End RevisionNumbers.

(** C2, as the code has it.  Revision numbers are given out under the
    unique lock, one more at each swap, and a call pushes the revision with
    the number it took: in every interleaving of calls of [tryCommit] on a
    tree as the constructor leaves it, the revisions pushed and those held by
    calls between their swap and their push carry, all together, each of the
    numbers 0 to [revisionNumber_] exactly once, so that no number is
    skipped, no two revisions share one, and once no call is in progress the
    coordinator has received exactly the numbers 0 to [revisionNumber_].
    When the calls run one after the other, the coordinator receives the
    numbers in increasing order, 0, 1, 2, ...  The push is made with no lock
    held: calls that overlap there may push out of order. *)
Theorem revision_numbers_assigned_once layout root transactions schedule :
  let st :=
    runSchedule layout schedule (notStarted transactions, ShadowTree_new root) in
  let consecutive :=
    Z.of_nat <$> seq 0 (S (Z.to_nat (revisionNumber_ st.2))) in
  0 <= revisionNumber_ st.2
  /\ revisionNumber
       <$> (mountingCoordinator_ st.2 ++ pendingRevisions st.1)
     ≡ₚ consecutive
  /\ NoDup (observedNumbers st.2)
  /\ (forall number,
        number ∈ observedNumbers st.2 ->
        0 <= number <= revisionNumber_ st.2)
  /\ (noneInProgress st.1 -> observedNumbers st.2 ≡ₚ consecutive)
  /\ (forall order,
        schedule = order ≫= replicate 5 ->
        observedNumbers st.2 = consecutive)
  /\ (forall transaction old new tree,
        addr (rootShadowNode_ tree) = addr old ->
        exists tree',
          attemptStep layout transaction (Built old new) tree
          = (Unlocked new (revisionNumber_ tree + 1), tree')
          /\ revisionNumber_ tree' = revisionNumber_ tree + 1
          /\ mountingCoordinator_ tree' = mountingCoordinator_ tree)
  /\ (forall transaction new number tree,
        exists tree',
          attemptStep layout transaction (EventsEmitted new number) tree
          = (RevisionPushed new number, tree')
          /\ revisionNumber_ tree' = revisionNumber_ tree
          /\ mountingCoordinator_ tree'
             = mountingCoordinator_ tree
                 ++ [ {| revisionRoot := new; revisionNumber := number |} ])
  /\ (forall transaction interference tree0 tree1,
        tryCommit layout transaction interference tree0 = (true, tree1) ->
        revisionNumber_ tree1 = revisionNumber_ (interference tree0) + 1
        /\ mountingCoordinator_ tree1
           = mountingCoordinator_ (interference tree0)
               ++ [ {| revisionRoot := rootShadowNode_ tree1;
                       revisionNumber := revisionNumber_ tree1 |} ]).
Proof.
  intros st consecutive.
  destruct (runSchedule_inStep layout schedule (notStarted transactions)
              (ShadowTree_new root) (inStep_new transactions root))
    as (Hpos & Hnumbers & _ & _).
  fold st in Hpos, Hnumbers. fold consecutive in Hnumbers.
  assert (NoDup consecutive) as Hnodup.
  { apply NoDup_fmap_2; [apply Nat2Z.inj'|apply NoDup_seq]. }
  rewrite fmap_app in Hnumbers. fold (observedNumbers st.2) in Hnumbers.
  split; [done|]. split; [by rewrite fmap_app|].
  split; [|split; [|split; [|split; [|split; [|split]]]]].
  - rewrite <- Hnumbers in Hnodup. by apply NoDup_app in Hnodup as [? _].
  - intros number Hin.
    assert (number ∈ consecutive) as Hc.
    { rewrite <- Hnumbers. apply elem_of_app. by left. }
    apply list_elem_of_fmap in Hc as (k & -> & Hk).
    apply elem_of_seq in Hk. lia.
  - intros Hnone. apply noneInProgress_pending in Hnone as [Hnone _].
    rewrite Hnone in Hnumbers. simpl in Hnumbers.
    by rewrite app_nil_r in Hnumbers.
  - intros order ->.
    destruct (runSchedule_in_turn layout order (notStarted transactions)
                (ShadowTree_new root) (noneInProgress_notStarted _)
                (consecutiveFromZero_new root)) as (Hobs & Hcount & _).
    fold st in Hobs, Hcount. rewrite Hobs. subst consecutive.
    do 2 f_equal. lia.
  - intros transaction old new tree Hsame. simpl. unfold samePointer.
    rewrite bool_decide_eq_true_2 by done. simpl. by eexists.
  - intros transaction new number tree. simpl. by eexists.
  - intros transaction interference tree0 tree1 Htry.
    by apply tryCommit_committed in Htry as (candidate & _ & _ & ->).
Qed.

Lemma revision_numbers_assigned_once_example :
  observedNumbers
    (runSchedule exampleLayout exampleOverlap (examplePool, exampleTree)).2
  ≡ₚ [0; 1; 2]
  /\ observedNumbers
       (runSchedule exampleLayout exampleInTurn (examplePool, exampleTree)).2
     = [0; 1; 2]
  /\ revisionNumber_
       (tryCommit exampleLayout replaceTransaction noInterference
          exampleTree).2
     = revisionNumber_ (noInterference exampleTree) + 1.
Proof.
  split; [|split].
  - destruct (revision_numbers_assigned_once exampleLayout exampleRoot
                [replaceTransaction; cloneTransaction] exampleOverlap)
      as (_ & _ & _ & _ & H5 & _).
    apply H5. vm_compute.
    repeat (constructor; [right; by eexists|]). constructor.
  - destruct (revision_numbers_assigned_once exampleLayout exampleRoot
                [replaceTransaction; cloneTransaction] exampleInTurn)
      as (_ & _ & _ & _ & _ & H6 & _).
    apply (H6 [0; 1]%nat). reflexivity.
  - destruct (revision_numbers_assigned_once exampleLayout exampleRoot
                [] [])
      as (_ & _ & _ & _ & _ & _ & _ & _ & H9).
    apply (H9 replaceTransaction noInterference exampleTree).
    vm_compute. reflexivity.
Defined.

(** The claim C2 as the specification states it fails for calls that
    overlap: two calls commit, the second overtakes the first between its
    swap and its push, and the coordinator receives the revisions numbered
    0, 2, 1 in this order. *)
Lemma overlapping_commits_push_out_of_order :
  let st :=
    runSchedule exampleLayout exampleOverlap (examplePool, exampleTree) in
  st.1.*2 = [Finished true; Finished true]
  /\ observedNumbers st.2 = [0; 2; 1]
  /\ ~ (forall i number,
          observedNumbers st.2 !! i = Some number -> number = Z.of_nat i).
Proof.
  split; [vm_compute; reflexivity|]. split; [vm_compute; reflexivity|].
  intros Hordered. specialize (Hordered 1%nat 2). vm_compute in Hordered.
  specialize (Hordered eq_refl). discriminate.
Qed.

(** ** Tearing the tree down *)

(** C10.  The transaction of [commitEmptyTree] always produces a root, a copy
    of the one it is given (same family) with no children.  When
    [commitEmptyTree] returns, its last attempt has swapped such a root in:
    the current root has no children, the diff pass has run from the children
    of the previous root to an empty new list, and every node of every
    subtree below the previous root is unmounted. *)
Theorem commitEmptyTree_unmounts_all
    layout emptyList allocate others tree k tree' :
  commitEmptyTree layout emptyList allocate others tree
  = Some (Returned, replicate k false ++ [true], tree') ->
  let previous := afterFailedAttempts others 0 k tree in
  let swapped := others (Z.of_nat (S k)) previous in
  (childrenRef (rootShadowNode_ previous) = emptyList ->
   children (rootShadowNode_ previous) = []) ->
  (forall root,
      exists newRoot,
        emptyTreeTransaction emptyList allocate root = Some newRoot
        /\ children newRoot = [] /\ family newRoot = family root)
  /\ addr (rootShadowNode_ swapped) = addr (rootShadowNode_ previous)
  /\ children (rootShadowNode_ tree') = []
  /\ family (rootShadowNode_ tree') = family (rootShadowNode_ previous)
  /\ flagEvents tree'
     = flagEvents swapped
         ++ updateMountedFlag (getChildren (rootShadowNode_ previous))
                              (mkList (Some emptyList) [])
  /\ (forall e, e ∈ updateMountedFlag (getChildren (rootShadowNode_ previous))
                                      (mkList (Some emptyList) []) ->
                exists x, e = SetMounted x false)
  /\ (forall x,
        x ∈ forestNodes (children (rootShadowNode_ previous)) ->
        mounted tree' !! addr x = Some false).
Proof.
  intros Hcommit previous swapped Hheap.
  unfold commitEmptyTree in Hcommit.
  destruct (commit_spec layout (emptyTreeTransaction emptyList allocate)
              others tree)
    as (outcome & k1 & tree1 & Heq & _ & Hout).
  rewrite Heq in Hcommit. destruct outcome; [|discriminate].
  injection Hcommit as Hlog <-.
  assert (k1 = k) as ->.
  { apply (f_equal length) in Hlog.
    rewrite !length_app, !length_replicate in Hlog. simpl in Hlog. lia. }
  destruct Hout as [_ Htry]. fold previous in Htry.
  apply tryCommit_committed in Htry as (candidate & Hnew & Hsame & ->).
  injection Hnew as <-. simpl.
  set (old := rootShadowNode_ previous) in *.
  set (new := mkList (Some emptyList) []).
  assert (sameHeap (getChildren old) new) as Hsame_heap.
  { split; simpl.
    - unfold sameListObject. simpl. intros Href%bool_decide_eq_true.
      by apply Hheap.
    - intros o n _ Hn. by apply elem_of_nil in Hn.
    - intros o n _ Hn. by apply elem_of_nil in Hn. }
  assert (forall y, SetMounted y true ∈ updateMountedFlag (getChildren old) new
                    -> False) as Hno_mount.
  { intros y Hy. apply updateMountedFlag_setMounted_within in Hy.
    unfold transitionWithin in Hy. simpl in Hy. by apply elem_of_nil in Hy. }
  split; [|repeat split; try done].
  - intros root. eexists. split; [reflexivity|]. done.
  - intros e He.
    destruct (updateMountedFlag_transitions (getChildren old) new)
      as (ts & Hts & Hwithin).
    rewrite Hts in He. apply elem_of_flat_map in He as ([x b] & Hx & He).
    eapply Forall_forall in Hwithin; [|exact Hx].
    unfold transitionWithin in Hwithin. simpl in Hwithin.
    destruct b; [by apply elem_of_nil in Hwithin|].
    apply list_elem_of_singleton in He. by exists x.
  - intros x Hx. apply applyEvents_lookup.
    + exists x. split; [|done].
      apply updateMountedFlag_unmounts_unmatched; [done|done|].
      intros n Hn. by apply elem_of_nil in Hn.
    + intros y Hy. by apply Hno_mount in Hy.
Qed.

Lemma commitEmptyTree_unmounts_all_example :
  let tree' :=
    (tryCommit exampleLayout exampleEmptyTransaction noInterference
       exampleTree).2 in
  children (rootShadowNode_ tree') = []
  /\ flagEvents tree'
     = [ SetMounted oldA false; SetMounted oldB false; SetMounted oldB1 false ]
  /\ mounted tree' !! addr oldB1 = Some false.
Proof.
  intros tree'.
  destruct (commitEmptyTree_unmounts_all exampleLayout 99%positive
              (fun r => (addr r + 100)%positive) (fun _ => noInterference)
              exampleTree 0%nat tree')
    as (_ & _ & H3 & _ & H5 & _ & H7).
  - vm_compute. reflexivity.
  - simpl. discriminate.
  - split; [exact H3|]. split; [rewrite H5; reflexivity|].
    apply (H7 oldB1). simpl. set_solver.
Defined.


(** * Further properties of the diff pass *)

Lemma stagesCalls_same_entries l1 l2 :
  Forall2 (fun o n => samePointer o n = true) l1 l2 ->
  stagesCalls l1 l2 = [].
Proof.
  induction 1 as [|o n l1 l2 Hp _ IH]; [reflexivity|].
  rewrite stagesCalls_cons by by rewrite Hp.
  unfold updatedPairCalls. simpl. by rewrite Hp.
Qed.

(** X1.  The pass makes no call when the two lists are one vector, and none
    when, entry by entry, they hold the same objects (two empty lists among
    them): unchanged siblings are skipped with their subtrees. *)
Theorem updateMountedFlag_unchanged_lists oldChildren newChildren :
  sameListObject oldChildren newChildren = true
  \/ Forall2 (fun o n => samePointer o n = true)
       (items oldChildren) (items newChildren) ->
  updateMountedFlag oldChildren newChildren = [].
Proof.
  intros [Hobj|Hsame]; [by apply updateMountedFlag_same_object|].
  destruct (sameListObject oldChildren newChildren) eqn:Hobj.
  - by apply updateMountedFlag_same_object.
  - rewrite stagesCalls_eq by done. by apply stagesCalls_same_entries.
Qed.

Lemma updateMountedFlag_unchanged_lists_example :
  updateMountedFlag exampleOldKept exampleSameEntries = []
  /\ updateMountedFlag exampleOld exampleOld = [].
Proof.
  split.
  - apply updateMountedFlag_unchanged_lists. right.
    repeat constructor.
  - apply updateMountedFlag_unchanged_lists. left. reflexivity.
Defined.

Lemma insertedCalls_preorder h : forall l,
  (forestHeight l <= h)%nat ->
  flat_map insertedCalls l
  = flat_map (fun n => SetMounted n true :: CommitState n) (forestNodes l).
Proof.
  induction h as [|h IHh]; intros l; induction l as [|n l IHl]; intros Hh;
    try reflexivity.
  - rewrite forestHeight_cons, nodeHeight_eq in Hh. lia.
  - rewrite forestHeight_cons, nodeHeight_eq in Hh.
    unfold forestNodes. simpl. fold (forestNodes l).
    rewrite subtreeNodes_eq. simpl.
    rewrite flat_map_app, <- IHl by lia.
    unfold insertedCalls at 1. rewrite updateMountedFlag_inserted. simpl.
    rewrite IHh by lia. by rewrite <- !app_assoc.
Qed.

Lemma removedCalls_preorder h : forall l,
  (forestHeight l <= h)%nat ->
  flat_map removedCalls l = (fun o => SetMounted o false) <$> forestNodes l.
Proof.
  induction h as [|h IHh]; intros l; induction l as [|o l IHl]; intros Hh;
    try reflexivity.
  - rewrite forestHeight_cons, nodeHeight_eq in Hh. lia.
  - rewrite forestHeight_cons, nodeHeight_eq in Hh.
    unfold forestNodes. simpl. fold (forestNodes l).
    rewrite subtreeNodes_eq. simpl.
    rewrite fmap_app, <- IHl by lia.
    unfold removedCalls at 1. rewrite updateMountedFlag_removed. simpl.
    by rewrite IHh by lia.
Qed.

(** X2.  Against an empty old list the pass mounts every node of the new
    forest exactly once, parents before children and siblings in order, each
    followed by the commit of its state when it has one; it unmounts
    nothing. *)
Theorem updateMountedFlag_inserts_forest oldChildren newChildren :
  items oldChildren = [] ->
  sameListObject oldChildren newChildren = false ->
  updateMountedFlag oldChildren newChildren
  = flat_map (fun n => SetMounted n true :: CommitState n)
      (forestNodes (items newChildren)).
Proof.
  intros Hempty Hobj. rewrite stagesCalls_eq by done.
  unfold stagesCalls. rewrite Hempty. simpl. rewrite app_nil_r.
  by eapply insertedCalls_preorder.
Qed.

Lemma updateMountedFlag_inserts_forest_example :
  updateMountedFlag temporaryEmptyList exampleOld
  = [ SetMounted oldA true; SetMounted oldB true; SetMounted oldB1 true ]
  /\ updateMountedFlag temporaryEmptyList exampleNew
     = [ SetMounted newA true; StateCommit 7 newA;
         SetMounted newC true; StateCommit 8 newC ].
Proof.
  split.
  - rewrite (updateMountedFlag_inserts_forest temporaryEmptyList exampleOld);
      reflexivity.
  - rewrite (updateMountedFlag_inserts_forest temporaryEmptyList exampleNew);
      reflexivity.
Defined.

(** X3.  Against an empty new list the pass unmounts every node of the old
    forest exactly once, parents before children and siblings in order, and
    commits no state. *)
Theorem updateMountedFlag_removes_forest oldChildren newChildren :
  items newChildren = [] ->
  sameListObject oldChildren newChildren = false ->
  updateMountedFlag oldChildren newChildren
  = (fun o => SetMounted o false) <$> forestNodes (items oldChildren).
Proof.
  intros Hempty Hobj. rewrite stagesCalls_eq by done.
  unfold stagesCalls. rewrite Hempty, diffBoundary_nil_r. simpl.
  rewrite drop_0. by eapply removedCalls_preorder.
Qed.

Lemma updateMountedFlag_removes_forest_example :
  updateMountedFlag exampleOld temporaryEmptyList
  = [ SetMounted oldA false; SetMounted oldB false; SetMounted oldB1 false ].
Proof.
  rewrite (updateMountedFlag_removes_forest exampleOld temporaryEmptyList).
  - reflexivity.
  - reflexivity.
  - reflexivity.
Defined.

Lemma applyEvents_frame evs : forall flags a,
  (forall x b, SetMounted x b ∈ evs -> addr x <> a) ->
  applyEvents flags evs !! a = flags !! a.
Proof.
  induction evs as [|e evs IH]; intros flags a Hno; [reflexivity|].
  simpl. rewrite IH by (intros x b Hx; apply (Hno x b); by right).
  destruct e as [y c|h y]; simpl; [|done].
  apply lookup_insert_ne. apply (Hno y c). by left.
Qed.

Lemma stateCommit_in_transitions ts h x :
  StateCommit h x ∈ flat_map transitionCalls ts ->
  (x, true) ∈ ts /\ state x = Some h.
Proof.
  intros Hin. apply elem_of_flat_map in Hin as ([y c] & Ht & Hin).
  unfold transitionCalls, CommitState in Hin. simpl in Hin.
  destruct c.
  - apply elem_of_cons in Hin as [Heq|Hin]; [discriminate|].
    destruct (state y) as [hy|] eqn:Hy; [|by apply elem_of_nil in Hin].
    apply list_elem_of_singleton in Hin. injection Hin as -> ->. done.
  - apply list_elem_of_singleton in Hin. discriminate.
Qed.

(** X4.  The pass sets the flag to [true] on nodes of the new forest only,
    to [false] on nodes of the old forest only, and commits state only for
    nodes of the new forest, with the handle of the node. *)
Theorem updateMountedFlag_calls_within oldChildren newChildren e :
  e ∈ updateMountedFlag oldChildren newChildren ->
  match e with
  | SetMounted x true => x ∈ forestNodes (items newChildren)
  | SetMounted x false => x ∈ forestNodes (items oldChildren)
  | StateCommit h x =>
      x ∈ forestNodes (items newChildren) /\ state x = Some h
  end.
Proof.
  intros He. destruct e as [x b|h x].
  - apply updateMountedFlag_setMounted_within in He. by destruct b.
  - destruct (updateMountedFlag_transitions oldChildren newChildren)
      as (ts & Heq & Hts).
    rewrite Heq in He. apply stateCommit_in_transitions in He as [Hx Hst].
    eapply Forall_forall in Hts; [|exact Hx]. done.
Qed.

Lemma updateMountedFlag_calls_within_example :
  newA ∈ forestNodes (items exampleNew) /\ state newA = Some 7%positive.
Proof.
  apply (updateMountedFlag_calls_within exampleOld exampleNew
           (StateCommit 7 newA)).
  vm_compute. set_solver.
Defined.

(** X5.  The pass leaves alone the flag of every address that is not the
    address of a node of one of the two forests. *)
Theorem updateMountedFlag_frame oldChildren newChildren flags a :
  (forall x, x ∈ forestNodes (items oldChildren) -> addr x <> a) ->
  (forall x, x ∈ forestNodes (items newChildren) -> addr x <> a) ->
  applyEvents flags (updateMountedFlag oldChildren newChildren) !! a
  = flags !! a.
Proof.
  intros Hold Hnew. apply applyEvents_frame. intros x b Hx.
  apply updateMountedFlag_setMounted_within in Hx.
  destruct b; [by apply Hnew|by apply Hold].
Qed.

Lemma updateMountedFlag_frame_example :
  applyEvents {[ 1%positive := true ]}
    (updateMountedFlag exampleOld exampleNew) !! 1%positive
  = Some true.
Proof.
  rewrite (updateMountedFlag_frame exampleOld exampleNew).
  - reflexivity.
  - simpl. intros x Hx. enumerate_nodes Hx; discriminate.
  - simpl. intros x Hx. enumerate_nodes Hx; discriminate.
Defined.

Lemma diffBoundary_le oldRest : forall newRest,
  (diffBoundary oldRest newRest <= length oldRest)%nat
  /\ (diffBoundary oldRest newRest <= length newRest)%nat.
Proof.
  induction oldRest as [|o oldRest IH]; intros [|n newRest]; simpl;
    try lia.
  destruct (samePointer o n || sameFamily o n); [|lia].
  destruct (IH newRest). lia.
Qed.

(** X6.  The index stage 1 is left with is within both lists, does not
    depend on what the recursive calls do, and when both lists have an entry
    there, the two entries are distinct objects of different families: the
    loop was left by [break]. *)
Theorem lastIndexAfterFirstStage_in_range recur oldRest newRest :
  let last := (stage1 recur oldRest newRest 0%nat).1 in
  (last <= length oldRest)%nat
  /\ (last <= length newRest)%nat
  /\ last = (stage1 updateMountedFlag oldRest newRest 0%nat).1
  /\ (forall o n,
        oldRest !! last = Some o -> newRest !! last = Some n ->
        addr o <> addr n /\ family o <> family n).
Proof.
  assert (forall l1 l2 i,
             (stage1 recur l1 l2 i).1 = (i + diffBoundary l1 l2)%nat) as Hidx.
  { intros l1. induction l1 as [|o l1 IH]; intros [|n l2] i; simpl;
      try lia.
    destruct (samePointer o n); simpl.
    - rewrite IH. lia.
    - destruct (sameFamily o n); simpl; [|lia].
      specialize (IH l2 (S i)).
      destruct (stage1 recur l1 l2 (S i)) as [j later]. simpl in *. lia. }
  intros last. subst last. rewrite Hidx, stage1_eq. simpl.
  destruct (diffBoundary_le oldRest newRest) as [Ho Hn].
  split; [done|]. split; [done|]. split; [done|].
  intros o n Hold Hnew.
  destruct (diffBoundary_stop _ _ _ _ Hold Hnew) as [Hp Hf].
  split; by eapply bool_decide_eq_false.
Qed.

Lemma lastIndexAfterFirstStage_in_range_example :
  addr oldB <> addr newC /\ family oldB <> family newC.
Proof.
  destruct (lastIndexAfterFirstStage_in_range updateMountedFlag
              (items exampleOld) (items exampleNew)) as (_ & _ & _ & H).
  apply H; reflexivity.
Defined.

(** X7.  Stage 3 has the last word: every node of the subtrees of the old
    entries from the stage-1 boundary on ends unmounted, also a node that is
    an entry of the new list as well (moved to a position past the
    boundary) and was mounted by stage 2 just before. *)
Theorem updateMountedFlag_removed_last oldChildren newChildren flags x :
  sameListObject oldChildren newChildren = false ->
  x ∈ forestNodes
        (drop (stage1 updateMountedFlag
                 (items oldChildren) (items newChildren) 0%nat).1
              (items oldChildren)) ->
  applyEvents flags (updateMountedFlag oldChildren newChildren) !! addr x
  = Some false.
Proof.
  intros Hobj Hx. rewrite stage1_eq in Hx. simpl in Hx.
  rewrite stagesCalls_eq by done. unfold stagesCalls.
  rewrite !applyEvents_app.
  rewrite (removedCalls_preorder _ _ (Nat.le_refl _)).
  apply applyEvents_lookup.
  - exists x. split; [|done]. apply list_elem_of_fmap. by exists x.
  - intros y Hy. simpl in Hy.
    apply list_elem_of_fmap in Hy as (z & Hz & _). discriminate.
Qed.

Lemma updateMountedFlag_removed_last_example :
  oldA ∈ items exampleSwapped
  /\ SetMounted oldA true ∈ updateMountedFlag exampleOld exampleSwapped
  /\ applyEvents ∅ (updateMountedFlag exampleOld exampleSwapped) !! addr oldA
     = Some false.
Proof.
  split; [simpl; set_solver|]. split; [vm_compute; set_solver|].
  apply updateMountedFlag_removed_last.
  - reflexivity.
  - vm_compute. set_solver.
Defined.


(** * Further properties of the commit engine *)

(** X8.  [emitLayoutEvents] emits one event for each affected node whose
    props ask for [onLayout], with the layout metrics of the node, in the
    order of the list; the other nodes get none. *)
Theorem emitLayoutEvents_requested affectedLayoutableNodes :
  emitLayoutEvents affectedLayoutableNodes
  = (fun n => (layoutableAddr n, layoutMetrics n))
      <$> filter (fun n => onLayout n = true) affectedLayoutableNodes.
Proof.
  induction affectedLayoutableNodes as [|n l IH]; [reflexivity|].
  unfold emitLayoutEvents in *. simpl. rewrite IH.
  destruct (onLayout n) eqn:Hn; simpl.
  - by rewrite filter_cons_True by done.
  - by rewrite filter_cons_False by congruence.
Qed.

Section FurtherAttempts.

Variable layout : ShadowNode -> list LayoutableShadowNode.
Variable transaction : ShadowTreeCommitTransaction.

Lemma tryCommit_success others tree candidate :
  transaction (rootShadowNode_ tree) = Some candidate ->
  addr (rootShadowNode_ (others tree)) = addr (rootShadowNode_ tree) ->
  (tryCommit layout transaction others tree).1 = true.
Proof.
  intros Hnew Hsame. unfold tryCommit. rewrite Hnew.
  unfold samePointer. by rewrite bool_decide_eq_true_2.
Qed.

End FurtherAttempts.

(** X9.  Without interference, [commit] of a transaction that produces a
    root for the current root returns after one attempt: that root is
    current and the revision number is one more. *)
Theorem commit_uncontended layout transaction tree candidate :
  transaction (rootShadowNode_ tree) = Some candidate ->
  exists tree',
    commit layout transaction (fun _ => noInterference) tree
    = Some (Returned, [true], tree')
    /\ tryCommit layout transaction noInterference tree = (true, tree')
    /\ rootShadowNode_ tree' = candidate
    /\ revisionNumber_ tree' = revisionNumber_ tree + 1.
Proof.
  intros Hnew.
  destruct (commit_spec layout transaction (fun _ => noInterference) tree)
    as (outcome & k & tree' & Heq & Hfailed & Hout).
  assert (k = 0%nat) as ->.
  { destruct k as [|k]; [done|]. exfalso.
    pose proof (Hfailed 0%nat ltac:(lia)) as Hfirst. simpl in Hfirst.
    pose proof (tryCommit_success layout transaction noInterference tree
                  candidate Hnew eq_refl) as Hok.
    change (afterFailedAttempts (fun _ => noInterference) 0 0 tree)
      with tree in Hfirst.
    rewrite Hfirst in Hok. discriminate. }
  destruct outcome; [|destruct Hout; discriminate].
  destruct Hout as [_ Htry].
  change (afterFailedAttempts (fun _ => noInterference) 0 0 tree)
    with tree in Htry.
  exists tree'. split; [exact Heq|]. split; [exact Htry|].
  apply tryCommit_committed in Htry as (c & Hc & _ & ->).
  simpl. split; [congruence|done].
Qed.

Lemma commit_uncontended_example :
  exists tree',
    commit exampleLayout replaceTransaction (fun _ => noInterference)
      exampleTree
    = Some (Returned, [true], tree')
    /\ tryCommit exampleLayout replaceTransaction noInterference exampleTree
       = (true, tree')
    /\ rootShadowNode_ tree'
       = mkShadowNode 101 1 None 11 [newA; newC]
    /\ revisionNumber_ tree' = revisionNumber_ exampleTree + 1.
Proof.
  apply (commit_uncontended exampleLayout replaceTransaction exampleTree).
  reflexivity.
Defined.



(** X11.  In every interleaving of calls of [tryCommit] on a tree as the
    constructor leaves it, the mounting coordinator has received the base
    revision and one revision for each notification of the delegate made or
    still due (calls between their push and their call on the delegate), and
    the revision with the current root and the current number has been
    pushed or is held by a call past its swap.  Once no call is in progress,
    the delegate has been notified once for each revision committed, the
    coordinator holds one revision more, and the revision with the current
    root and number is among those it has received. *)
Theorem collaborators_in_step layout root transactions schedule :
  let st :=
    runSchedule layout schedule (notStarted transactions, ShadowTree_new root) in
  let current :=
    {| revisionRoot := rootShadowNode_ st.2;
       revisionNumber := revisionNumber_ st.2 |} in
  length (mountingCoordinator_ st.2)
  = S (delegateNotifications st.2
       + length (filter (fun a => awaitsNotification a = true) st.1))
  /\ current ∈ mountingCoordinator_ st.2 ++ pendingRevisions st.1
  /\ (noneInProgress st.1 ->
      Z.of_nat (delegateNotifications st.2) = revisionNumber_ st.2
      /\ length (mountingCoordinator_ st.2) = S (delegateNotifications st.2)
      /\ current ∈ mountingCoordinator_ st.2).
Proof.
  intros st current.
  destruct (runSchedule_inStep layout schedule (notStarted transactions)
              (ShadowTree_new root) (inStep_new transactions root))
    as (Hpos & Hnumbers & Hcurrent & Hcount).
  fold st in Hpos, Hnumbers, Hcurrent, Hcount. fold current in Hcurrent.
  split; [done|]. split; [done|].
  intros Hnone. apply noneInProgress_pending in Hnone as [Hpending Hawait].
  rewrite Hpending, app_nil_r in Hnumbers, Hcurrent.
  rewrite Hawait in Hcount. simpl in Hcount. rewrite Nat.add_0_r in Hcount.
  apply Permutation_length in Hnumbers.
  rewrite !length_fmap, length_seq in Hnumbers.
  split; [lia|]. split; done.
Qed.

Lemma collaborators_in_step_example :
  let st :=
    runSchedule exampleLayout exampleOverlap (examplePool, exampleTree) in
  Z.of_nat (delegateNotifications st.2) = revisionNumber_ st.2
  /\ length (mountingCoordinator_ st.2) = S (delegateNotifications st.2)
  /\ {| revisionRoot := rootShadowNode_ st.2;
        revisionNumber := revisionNumber_ st.2 |}
     ∈ mountingCoordinator_ st.2.
Proof.
  destruct (collaborators_in_step exampleLayout exampleRoot
              [replaceTransaction; cloneTransaction] exampleOverlap)
    as (_ & _ & H3).
  apply H3. vm_compute.
  repeat (constructor; [right; by eexists|]). constructor.
Defined.

(** X12.  An attempt that commits a root which keeps the child vector of the
    old root (a copy of the root with other props, say) makes no call of the
    diff pass and writes no mounted flag; the revision number advances all
    the same. *)
Theorem tryCommit_same_children layout transaction others tree candidate :
  transaction (rootShadowNode_ tree) = Some candidate ->
  childrenRef candidate = childrenRef (rootShadowNode_ tree) ->
  addr (rootShadowNode_ (others tree)) = addr (rootShadowNode_ tree) ->
  exists tree',
    tryCommit layout transaction others tree = (true, tree')
    /\ mounted tree' = mounted (others tree)
    /\ flagEvents tree' = flagEvents (others tree)
    /\ revisionNumber_ tree' = revisionNumber_ (others tree) + 1.
Proof.
  intros Hnew Hchildren Hsame.
  pose proof (tryCommit_success layout transaction others tree candidate
                Hnew Hsame) as Hok.
  destruct (tryCommit layout transaction others tree) as [ok tree'] eqn:Htry.
  simpl in Hok. subst ok. exists tree'. split; [done|].
  apply tryCommit_committed in Htry as (c & Hc & _ & ->).
  assert (c = candidate) as -> by congruence. simpl.
  rewrite updateMountedFlag_same_object.
  - by rewrite app_nil_r.
  - unfold sameListObject. simpl. by apply bool_decide_eq_true.
Qed.

Lemma tryCommit_same_children_example :
  exists tree',
    tryCommit exampleLayout cloneTransaction noInterference exampleTree
    = (true, tree')
    /\ mounted tree' = mounted (noInterference exampleTree)
    /\ flagEvents tree' = flagEvents (noInterference exampleTree)
    /\ revisionNumber_ tree' = revisionNumber_ (noInterference exampleTree) + 1.
Proof.
  eapply (tryCommit_same_children exampleLayout cloneTransaction).
  - reflexivity.
  - reflexivity.
  - reflexivity.
Defined.

(** X13.  An attempt writes the mounted flag only at addresses of nodes below
    the root it read or below the root the transaction produced; every other
    flag, those of the two roots among them when they are not their own
    descendants, is as the other threads left it. *)
Theorem tryCommit_flags_frame layout transaction others tree a :
  (forall x,
      x ∈ forestNodes (children (rootShadowNode_ tree)) -> addr x <> a) ->
  (forall candidate x,
      transaction (rootShadowNode_ tree) = Some candidate ->
      x ∈ forestNodes (children candidate) -> addr x <> a) ->
  mounted (tryCommit layout transaction others tree).2 !! a
  = mounted (others tree) !! a.
Proof.
  intros Hold Hnew.
  destruct (tryCommit layout transaction others tree) as [[] tree'] eqn:Htry.
  - apply tryCommit_committed in Htry as (candidate & Hc & _ & ->). simpl.
    apply updateMountedFlag_frame; [done|]. intros x. by apply (Hnew candidate).
  - by apply tryCommit_failed in Htry as ->.
Qed.

Lemma tryCommit_flags_frame_example :
  mounted (tryCommit exampleLayout replaceTransaction noInterference
             exampleTree).2 !! addr exampleRoot
  = mounted (noInterference exampleTree) !! addr exampleRoot.
Proof.
  apply tryCommit_flags_frame.
  - simpl. intros x Hx. enumerate_nodes Hx; discriminate.
  - intros candidate x [= <-]. simpl. intros Hx.
    enumerate_nodes Hx; discriminate.
Defined.

(** X14.  When stage 1 reaches a pair of distinct nodes of one family, and
    the new node is not also a node of the old forest nor the old node one of
    the new forest, the pass ends with the new node mounted and the old node
    unmounted: the new node takes the place of the old one. *)
Theorem updateMountedFlag_replaces oldChildren newChildren flags i o n :
  sameListObject oldChildren newChildren = false ->
  (i < (stage1 updateMountedFlag
          (items oldChildren) (items newChildren) 0%nat).1)%nat ->
  items oldChildren !! i = Some o ->
  items newChildren !! i = Some n ->
  samePointer o n = false ->
  (forall x, x ∈ forestNodes (items oldChildren) -> addr x <> addr n) ->
  (forall x, x ∈ forestNodes (items newChildren) -> addr x <> addr o) ->
  let flags' :=
    applyEvents flags (updateMountedFlag oldChildren newChildren) in
  flags' !! addr n = Some true /\ flags' !! addr o = Some false.
Proof.
  intros Hobj Hi Ho Hn Hp Hfresh_n Hfresh_o flags'. subst flags'.
  rewrite stage1_eq in Hi. simpl in Hi.
  destruct (updatedPairCalls_segment _ _ _ _ _ Hobj Hi Ho Hn)
    as (before & after & Heq).
  unfold updatedPairCalls in Heq. simpl in Heq. rewrite Hp in Heq.
  split; apply applyEvents_lookup.
  - exists n. split; [|done]. rewrite Heq.
    apply elem_of_app. right. apply elem_of_app. left. by left.
  - intros y Hy. simpl in Hy.
    apply updateMountedFlag_setMounted_within in Hy. by apply Hfresh_n.
  - exists o. split; [|done]. rewrite Heq.
    apply elem_of_app. right. apply elem_of_app. left.
    right. apply elem_of_app. right. by left.
  - intros y Hy. simpl in Hy.
    apply updateMountedFlag_setMounted_within in Hy. by apply Hfresh_o.
Qed.

Lemma updateMountedFlag_replaces_example :
  let flags' :=
    applyEvents {[ 2%positive := true ]}
      (updateMountedFlag exampleOld exampleNew) in
  flags' !! addr newA = Some true /\ flags' !! addr oldA = Some false.
Proof.
  apply (updateMountedFlag_replaces exampleOld exampleNew _ 0%nat oldA newA).
  - reflexivity.
  - vm_compute. lia.
  - reflexivity.
  - reflexivity.
  - reflexivity.
  - simpl. intros x Hx. enumerate_nodes Hx; discriminate.
  - simpl. intros x Hx. enumerate_nodes Hx; discriminate.
Defined.
